(** * Dual-basis polynomials over a prime field

    A shallow embedding of [src/common_util/poly.py]: the class [Polynomial]
    (coefficient vectors in the MONOMIAL basis, evaluation vectors over the
    roots of unity in the LAGRANGE basis, the FFT between them, barycentric
    and Horner evaluation) and the class [InterpolationPoly] (Lagrange
    interpolation through arbitrary points).

    Python exceptions (failed [assert], [IndexError], [ZeroDivisionError],
    numpy's [ValueError], unbounded recursion) are the [None] of [option]. *)

From HB Require Import structures.
From mathcomp Require Import boot order algebra.
From Stdlib Require Import Lia.

Set Implicit Arguments.
Unset Strict Implicit.
Unset Printing Implicit Defensive.

Import Order.TTheory GRing.Theory Num.Theory.
Local Open Scope ring_scope.

(** ** Python sequence idioms *)

Module Py.
Section Sequences.
Variable T : Type.
Implicit Types (s : seq T) (k : int).

(** The position a slice bound [k] denotes in a sequence of length [n]:
    a negative bound counts from the end, and both ends are clamped. *)
Definition bound (n : nat) k : nat :=
  match k with
  | Posz m => minn m n
  | Negz m => (n - m.+1)%N
  end.

(** [s[k:]] and [s[:k]]. *)
Definition slice_from s k := drop (bound (size s) k) s.
Definition slice_to s k := take (bound (size s) k) s.

(** [s[i]] for a non-negative position: [IndexError] past the end. *)
Definition get s (i : nat) : option T := ohead (drop i s).

(** [s[i]] for any integer: negative positions count from the end. *)
Definition index s (i : int) : option T :=
  match i with
  | Posz m => get s m
  | Negz m => if (m < size s)%N then get s (size s - m.+1) else None
  end.

(** [s[i] = v] on a list: [IndexError] past the end. *)
Definition set s (i : nat) (v : T) : option (seq T) :=
  if (i < size s)%N then Some (take i s ++ v :: drop i.+1 s) else None.

(** [s[::2]]; [s[1::2]] is [evens (behead s)]. *)
Fixpoint evens s : seq T :=
  if s is x :: s' then x :: (if s' is _ :: s'' then evens s'' else [::])
  else [::].

Definition odds s : seq T := evens (behead s).

(** [for i in range(n): st = body(st, i)], where the body may raise. *)
Definition for_range (S : Type) (n : nat) (body : S -> nat -> option S)
    (st : S) : option S :=
  foldl (fun acc i => if acc is Some a then body a i else None)
        (Some st) (iota 0 n).

End Sequences.
End Py.

(** ** numpy.polynomial.polynomial on coefficient arrays

    [poly.py] delegates MONOMIAL arithmetic to numpy's [polyadd], [polysub],
    [polymul] and [polydiv], which it calls on sequences of field elements
    (arrays of dtype object).  They are transcribed here from numpy's
    definitions:
    every function first passes its arguments through [as_series], which
    rejects an empty array and strips trailing zeros. *)

Module Np.
Section Coefficients.
Variable F : fieldType.
Implicit Types (c : seq F).

(** The loop of [trimseq]: scan down from position [i] to the first
    non-zero entry, stopping at position 0 at the latest. *)
Fixpoint trim_scan c (i : nat) : nat :=
  if nth 0 c i != 0 then i else if i is i'.+1 then trim_scan c i' else 0%N.

Definition trimseq c : seq F :=
  if (size c == 0%N) || (last 0 c != 0) then c
  else take (trim_scan c (size c).-1).+1 c.

Definition as_series c : option (seq F) :=
  if size c == 0%N then None else Some (trimseq c).

(** [c1[:c2.size] += c2; return c1], for [c2] no longer than [c1]. *)
Definition add_into c1 c2 : seq F :=
  [seq xy.1 + xy.2 | xy <- zip (take (size c2) c1) c2] ++ drop (size c2) c1.

Definition polyadd a b : option (seq F) :=
  if as_series a is Some c1 then
    if as_series b is Some c2 then
      Some (trimseq (if (size c2 < size c1)%N then add_into c1 c2
                     else add_into c2 c1))
    else None
  else None.

(** [c1[:c2.size] -= c2; return c1], for [c2] no longer than [c1]. *)
Definition sub_from c1 c2 : seq F :=
  [seq xy.1 - xy.2 | xy <- zip (take (size c2) c1) c2] ++ drop (size c2) c1.

(** [polysub(a, b)]: when [c1] is not the longer array, [c2] is negated and
    [c1] is added into it. *)
Definition polysub a b : option (seq F) :=
  if as_series a is Some c1 then
    if as_series b is Some c2 then
      Some (trimseq (if (size c2 < size c1)%N then sub_from c1 c2
                     else add_into [seq - x | x <- c2] c1))
    else None
  else None.

(** [np.convolve(a, v)] in its default full mode: entry [k] is the sum of
    the products [a[j] * v[k - j]], entries outside the arrays being 0. *)
Definition convolve a v : seq F :=
  mkseq (fun k => foldr +%R 0 (mkseq (fun j => nth 0 a j * nth 0 v (k - j)) k.+1))
        (size a + size v).-1.

Definition polymul a b : option (seq F) :=
  if as_series a is Some c1 then
    if as_series b is Some c2 then Some (trimseq (convolve c1 c2)) else None
  else None.

(** [c1[i:j] -= c2 * x], where [c2] has [j - i] entries. *)
Definition sub_slice c1 (i j : nat) c2 (x : F) : seq F :=
  take i c1
  ++ [seq ab.1 - ab.2 * x | ab <- zip (take (j - i) (drop i c1)) c2]
  ++ drop j c1.

(** The [while i >= 0] loop of [polydiv]; [j] is [i + m] throughout, where
    [m] is the length of the normalised divisor [c2]. *)
Fixpoint div_loop c2 (m : nat) (i : nat) c1 : seq F :=
  let c1' := sub_slice c1 i (i + m) c2 (nth 0 c1 (i + m)) in
  if i is i'.+1 then div_loop c2 m i' c1' else c1'.

(** [polydiv(a, b)]: the pair (quotient, remainder). *)
Definition polydiv a b : option (seq F * seq F) :=
  if as_series a is Some c1 then
    if as_series b is Some c2 then
      if last 0 c2 == 0 then None
      else
        let lc1 := size c1 in
        let lc2 := size c2 in
        if (lc1 < lc2)%N then Some ([seq x * 0 | x <- take 1 c1], c1)
        else if lc2 == 1%N then
          Some ([seq x / last 0 c2 | x <- c1], [seq x * 0 | x <- take 1 c1])
        else
          let dlen := (lc1 - lc2)%N in
          let scl := last 0 c2 in
          let c2' := [seq x / scl | x <- take lc2.-1 c2] in
          let c1' := div_loop c2' lc2.-1 dlen c1 in
          Some ([seq x / scl | x <- drop lc2.-1 c1'],
                trimseq (take lc2.-1 c1'))
    else None
  else None.

End Coefficients.
End Np.

(** ** The field-element capability

    Modelled from the spec: the class [Scalar] of [src/common_util/curve.py],
    which is not among the sources.  Section 6 of the specification gives
    its contract: elements of the prime field of modulus [field_modulus]
    with exact field arithmetic, division failing on a zero divisor,
    conversion to and from the underlying integer, and [roots_of_unity]. *)

Section ScalarCapability.
Variable p : nat.
Local Notation Scalar := 'F_p.

(** [Scalar.field_modulus]. *)
Definition field_modulus : int := Posz p.

(** [x.n], the underlying integer. *)
Definition n_of (x : Scalar) : int := Posz (val x).

(** [Scalar(z)] for an integer [z]. *)
Definition of_int (z : int) : Scalar := z%:~R.

(** [x / y]. *)
Definition sdiv (x y : Scalar) : option Scalar :=
  if y == 0 then None else Some (x / y).

(** [x == z] for a field element [x] and an integer [z]. *)
Definition eq_int (x : Scalar) (z : int) : bool := n_of x == z.

(** The contract of [Scalar.roots_of_unity(n)] for a sequence [rs]: exactly
    the [n] distinct powers, in order, of one element of order [n], which
    sits at position 1 (position 0 holds the identity). *)
Definition roots_contract (n : nat) (rs : seq Scalar) : bool :=
  let w := nth 1 rs 1 in
  [&& rs == [seq w ^+ i | i <- iota 0 n], uniq rs & w ^+ n == 1].

End ScalarCapability.

(** ** class Polynomial *)

Inductive Basis := LAGRANGE | MONOMIAL.

Definition Basis_code (b : Basis) : bool := if b is LAGRANGE then true else false.
Definition Basis_decode (c : bool) : Basis := if c then LAGRANGE else MONOMIAL.
Lemma Basis_codeK : cancel Basis_code Basis_decode.
Proof. by case. Qed.
HB.instance Definition _ := Equality.copy Basis (can_type Basis_codeK).

Section PolynomialClass.
Variable p : nat.
Local Notation Scalar := 'F_p.

(** [Scalar.roots_of_unity], a parameter of the development. *)
Variable roots_of_unity : nat -> seq Scalar.

Record Polynomial := mkPolynomial { values : seq Scalar; basis : Basis }.

(** The right-hand operand of a binary operator: the methods dispatch on
    [isinstance(other, Polynomial)]. *)
Inductive operand := OfPolynomial of Polynomial | OfScalar of Scalar.

(** [[x / y for x, y in pairs]]. *)
Fixpoint div_pairs (pairs : seq (Scalar * Scalar)) : option (seq Scalar) :=
  if pairs is (x, y) :: pairs' then
    if sdiv x y is Some q then
      if div_pairs pairs' is Some qs then Some (q :: qs) else None
    else None
  else Some [::].

Definition __add__ (self : Polynomial) (other : operand) : option Polynomial :=
  match other with
  | OfPolynomial other =>
      if basis self == basis other then
        match basis self with
        | LAGRANGE =>
            if size (values self) == size (values other) then
              Some (mkPolynomial
                      [seq xy.1 + xy.2 | xy <- zip (values self) (values other)]
                      (basis self))
            else None
        | MONOMIAL =>
            if Np.polyadd (values self) (values other) is Some res then
              Some (mkPolynomial res (basis self))
            else None
        end
      else None
  | OfScalar other =>
      match basis self with
      | LAGRANGE =>
          Some (mkPolynomial [seq x + other | x <- values self] (basis self))
      | MONOMIAL =>
          if Np.polyadd (values self) [:: other] is Some res then
            Some (mkPolynomial res (basis self))
          else None
      end
  end.

Definition __sub__ (self : Polynomial) (other : operand) : option Polynomial :=
  match other with
  | OfPolynomial other =>
      if basis self == basis other then
        match basis self with
        | LAGRANGE =>
            if size (values self) == size (values other) then
              Some (mkPolynomial
                      [seq xy.1 - xy.2 | xy <- zip (values self) (values other)]
                      (basis self))
            else None
        | MONOMIAL =>
            if Np.polysub (values self) (values other) is Some res then
              Some (mkPolynomial res (basis self))
            else None
        end
      else None
  | OfScalar other =>
      match basis self with
      | LAGRANGE =>
          Some (mkPolynomial [seq x - other | x <- values self] (basis self))
      | MONOMIAL =>
          if Np.polysub (values self) [:: other] is Some res then
            Some (mkPolynomial res (basis self))
          else None
      end
  end.

Definition __mul__ (self : Polynomial) (other : operand) : option Polynomial :=
  match other with
  | OfPolynomial other =>
      if basis self == basis other then
        match basis self with
        | LAGRANGE =>
            if size (values self) == size (values other) then
              Some (mkPolynomial
                      [seq xy.1 * xy.2 | xy <- zip (values self) (values other)]
                      (basis self))
            else None
        | MONOMIAL =>
            if Np.polymul (values self) (values other) is Some res then
              Some (mkPolynomial res (basis self))
            else None
        end
      else None
  | OfScalar other =>
      match basis self with
      | LAGRANGE =>
          Some (mkPolynomial [seq x * other | x <- values self] (basis self))
      | MONOMIAL =>
          if Np.polymul (values self) [:: other] is Some res then
            Some (mkPolynomial res (basis self))
          else None
      end
  end.

Definition __truediv__ (self : Polynomial) (other : operand)
    : option Polynomial :=
  match other with
  | OfPolynomial other =>
      if basis self == basis other then
        match basis self with
        | LAGRANGE =>
            if size (values self) == size (values other) then
              if div_pairs (zip (values self) (values other)) is Some res then
                Some (mkPolynomial res (basis self))
              else None
            else None
        | MONOMIAL =>
            if Np.polydiv (values self) (values other) is Some (qx, rx) then
              (* assert rx == [0] *)
              if rx == [:: 0] then Some (mkPolynomial qx (basis self))
              else None
            else None
        end
      else None
  | OfScalar other =>
      match basis self with
      | LAGRANGE =>
          if div_pairs [seq (x, other) | x <- values self] is Some res then
            Some (mkPolynomial res (basis self))
          else None
      | MONOMIAL =>
          if Np.polydiv (values self) [:: other] is Some (quo, _) then
            Some (mkPolynomial quo (basis self))
          else None
      end
  end.

Definition shift (self : Polynomial) (shift : int) : option Polynomial :=
  if basis self is LAGRANGE then
    if shift < Posz (size (values self)) then
      Some (mkPolynomial
              (Py.slice_from (values self) shift ++ Py.slice_to (values self) shift)
              (basis self))
    else None
  else None.

(** The [for i, (x, y) in enumerate(zip(L, R))] loop of [_fft], started at
    position [i] on the output list [o]. *)
Fixpoint butterfly (modulus : int) (roots : seq int) (lenL : nat) (i : nat)
    (LR : seq (int * int)) (o : seq int) : option (seq int) :=
  if LR is (x, y) :: LR' then
    if Py.get roots i is Some r then
      let y_times_root := y * r in
      if Py.set o i ((x + y_times_root) %% modulus)%Z is Some o1 then
        if Py.set o1 (i + lenL) ((x - y_times_root) %% modulus)%Z is Some o2
        then butterfly modulus roots lenL i.+1 LR' o2
        else None
      else None
    else None
  else Some o.

(** The inner function [_fft].  [fuel] bounds the recursion depth: the
    recursion on an empty list never ends in Python, and ends here with
    [None]. *)
Fixpoint _fft (fuel : nat) (vals : seq int) (modulus : int) (roots : seq int)
    : option (seq int) :=
  if fuel is fuel'.+1 then
    if size vals == 1%N then Some vals
    else
      if _fft fuel' (Py.evens vals) modulus (Py.evens roots) is Some L then
        if _fft fuel' (Py.odds vals) modulus (Py.evens roots) is Some R then
          butterfly modulus roots (size L) 0 (zip L R) (nseq (size vals) 0)
        else None
      else None
  else None.

(** [fft(self, inv)].  A list of length [n >= 1] needs recursion depth at
    most [n], so [_fft] is run with fuel [n]. *)
Definition fft (self : Polynomial) (inv : bool) : option Polynomial :=
  let roots := [seq n_of x | x <- roots_of_unity (size (values self))] in
  let o := field_modulus p in
  let nvals := [seq n_of x | x <- values self] in
  if inv then
    if basis self is LAGRANGE then
      if sdiv 1 (size (values self))%:R is Some invlen then
        if roots is r0 :: rs then
          let reversed_roots := r0 :: rev rs in
          if _fft (size nvals) nvals o reversed_roots is Some res then
            Some (mkPolynomial [seq of_int p x * invlen | x <- res] MONOMIAL)
          else None
        else None
      else None
    else None
  else
    if basis self is MONOMIAL then
      if _fft (size nvals) nvals o roots is Some res then
        Some (mkPolynomial [seq of_int p x | x <- res] LAGRANGE)
      else None
    else None.

Definition ifft (self : Polynomial) : option Polynomial := fft self true.

(** [roots_of_unity.index(elem)] under the guard [elem in roots_of_unity],
    for [elem = x.n % Scalar.field_modulus]. *)
Definition root_index (x : Scalar) (roots : seq Scalar) : option nat :=
  let elem := (n_of x %% field_modulus p)%Z in
  if has (fun r => eq_int r elem) roots
  then Some (find (fun r => eq_int r elem) roots)
  else None.

(** [[value * root / (x - root) for value, root in pairs]]. *)
Fixpoint barycentric_terms (x : Scalar) (pairs : seq (Scalar * Scalar))
    : option (seq Scalar) :=
  if pairs is (value, root) :: pairs' then
    if sdiv (value * root) (x - root) is Some t then
      if barycentric_terms x pairs' is Some ts then Some (t :: ts) else None
    else None
  else Some [::].

Definition barycentric_eval (self : Polynomial) (x : Scalar) : option Scalar :=
  if basis self is LAGRANGE then
    let order := size (values self) in
    let roots := roots_of_unity order in
    if root_index x roots is Some i then Py.get (values self) i
    else
      if sdiv (x ^+ order - 1) order%:R is Some c then
        if barycentric_terms x (zip (values self) roots) is Some ts then
          Some (c * foldl +%R 0 ts)
        else None
      else None
  else None.

Definition coeff_eval (self : Polynomial) (x : Scalar) : option Scalar :=
  if basis self is MONOMIAL then
    if values self is c0 :: coeffs then
      Some (foldl (fun st c => let x_pow := st.2 * x in
                               (st.1 + c * x_pow, x_pow))
                  (c0, 1) coeffs).1
    else None
  else None.

End PolynomialClass.

(** ** class InterpolationPoly *)

Module InterpolationPoly.
Section Class.
Variable p : nat.
Local Notation Scalar := 'F_p.

Record t := Build { n : nat; X : seq Scalar; Y : seq Scalar }.

Definition __init__ (X Y : seq Scalar) : option t :=
  if size X == size Y then Some (Build (size X) X Y) else None.

(** [f(X) = X - a] *)
Definition root_poly (x_val : Scalar) : Polynomial p :=
  mkPolynomial [:: - x_val; 1] MONOMIAL.

(** [f(X) = a] *)
Definition const_poly (x_val : Scalar) : Polynomial p :=
  mkPolynomial [:: x_val] MONOMIAL.

Definition vanishing_poly (self : t) : option (Polynomial p) :=
  Py.for_range (n self)
    (fun v_poly i =>
       if Py.get (X self) i is Some x then
         __mul__ v_poly (OfPolynomial (root_poly x))
       else None)
    (const_poly 1).

Definition vanishing_poly_diff (self : t) : option (Polynomial p) :=
  if vanishing_poly self is Some v_poly then
    Py.for_range (n self)
      (fun v_diff_poly i =>
         if Py.get (X self) i is Some x then
           if __truediv__ v_poly (OfPolynomial (root_poly x)) is Some q then
             __add__ v_diff_poly (OfPolynomial q)
           else None
         else None)
      (const_poly 0)
  else None.

Definition lagrange_poly (self : t) (i : int) : option (Polynomial p) :=
  if vanishing_poly self is Some v_poly then
    if vanishing_poly_diff self is Some v_diff_poly then
      if Py.index (X self) i is Some x_val then
        if coeff_eval v_diff_poly x_val is Some v_diff_poly_at_i then
          if __truediv__ v_poly (OfPolynomial (root_poly x_val)) is Some q then
            __truediv__ q (OfScalar v_diff_poly_at_i)
          else None
        else None
      else None
    else None
  else None.

Definition poly (self : t) : option (Polynomial p) :=
  Py.for_range (n self)
    (fun poly i =>
       if lagrange_poly self (Posz i) is Some lagrange_poly then
         if Py.get (Y self) i is Some y then
           if __mul__ lagrange_poly (OfScalar y) is Some term then
             __add__ poly (OfPolynomial term)
           else None
         else None
       else None)
    (const_poly 0).

End Class.
End InterpolationPoly.

(** ** Polynomials denoted by coefficient vectors

    The mathematical objects the properties below are stated with. *)

Section Denotation.
Variable F : fieldType.

(** The coefficient array numpy returns for a polynomial: no trailing
    zeros, the zero polynomial being [[0]]. *)
Definition np_repr (P : {poly F}) : seq F := if P == 0 then [:: 0] else P.

(** A coefficient array as numpy leaves it: not empty, and without a
    trailing zero unless it is [[0]]. *)
Definition normal (c : seq F) : bool :=
  (c != [::]) && ((last 0 c != 0) || (c == [:: 0])).

End Denotation.

Section PolynomialDenotation.
Variable p : nat.
Local Notation Scalar := 'F_p.
Implicit Types (A : Polynomial p) (X Y : seq Scalar) (x : Scalar).

(** The polynomial a coefficient vector stands for. *)
Definition poly_of A : {poly Scalar} := Poly (values A).

(** A MONOMIAL polynomial with at least one coefficient: what numpy
    accepts as a coefficient array. *)
Definition monomial A : bool := (basis A == MONOMIAL) && (values A != [::]).

(** The MONOMIAL polynomial numpy returns for [P]. *)
Definition of_poly (P : {poly Scalar}) : Polynomial p :=
  mkPolynomial (np_repr P) MONOMIAL.

(** [A] with its trailing zero coefficients stripped by numpy. *)
Definition trimmed A : Polynomial p :=
  mkPolynomial (Np.trimseq (values A)) (basis A).

(** The product of the linear factors [X - x], [x] ranging over [X]. *)
Definition vanishing X : {poly Scalar} := \prod_(x <- X) ('X - x%:P).

(** The vanishing polynomial with the factor [X - x] divided out, and the
    Lagrange basis polynomial of the node [x]. *)
Definition quotient X x : {poly Scalar} := vanishing X %/ ('X - x%:P).
Definition lagrange X x : {poly Scalar} := (quotient X x).[x]^-1 *: quotient X x.

(** The interpolant of the points [(X[i], Y[i])]. *)
Definition interpolant X Y : {poly Scalar} :=
  \sum_(0 <= i < size X) Y`_i *: lagrange X X`_i.

End PolynomialDenotation.

(** ** The toy field of modulus 5

    The scenario of the specification: modulus 5, generator 2 of the
    multiplicative group, and the domain of size 4. *)

Definition toy_roots (n : nat) : seq 'F_5 :=
  [seq (2%:R ^+ (4 %/ n)) ^+ i | i <- iota 0 n].

Definition toy_coeffs : Polynomial 5 :=
  mkPolynomial [:: 1; 2%:R; 3%:R; 4%:R] MONOMIAL.

Definition toy_evals : Polynomial 5 :=
  mkPolynomial [:: 0; 4%:R; 3%:R; 2%:R] LAGRANGE.

Definition toy_X : seq 'F_5 := [:: 1; 2%:R].
Definition toy_Y : seq 'F_5 := [:: 3%:R; 4%:R].
Definition toy_ip : InterpolationPoly.t 5 := InterpolationPoly.Build 2 toy_X toy_Y.

(** [X^2 - 1] and its factor [X - 1]. *)
Definition toy_dividend : Polynomial 5 := mkPolynomial [:: 4%:R; 0; 1] MONOMIAL.
Definition toy_divisor : Polynomial 5 := mkPolynomial [:: 4%:R; 1] MONOMIAL.
(** * Properties

    ** Arithmetic on [nat]: a bridge from ssrnat's boolean order to [lia] *)

Ltac nat_hyps :=
  repeat match goal with
  | H : is_true (leq _ _) |- _ => move/ssrnat.leP in H
  | H : is_true (~~ leq _ _) |- _ => rewrite -ltnNge in H
  | H : leq _ _ = false |- _ => move/negbT in H
  | H : is_true (@eq_op _ _ _) |- _ => move/eqP in H
  end.
Ltac nat_goal :=
  try match goal with
  | |- is_true (leq _ _) => apply/ssrnat.leP
  | |- is_true (@eq_op _ _ _) => apply/eqP
  | |- leq _ _ = false => apply/negbTE; rewrite -ltnNge; apply/ssrnat.leP
  | |- is_true (~~ leq _ _) => rewrite -ltnNge; apply/ssrnat.leP
  end.
Ltac nat_ops_in :=
  repeat match goal with
  | H : context [addn] |- _ => rewrite -plusE in H
  | H : context [subn] |- _ => rewrite -minusE in H
  | H : context [muln] |- _ => rewrite -multE in H
  end.
Ltac nat_revert :=
  repeat match goal with
  | H : (_ <= _)%coq_nat |- _ => revert H
  | H : (_ < _)%coq_nat |- _ => revert H
  | H : @eq nat _ _ |- _ => revert H
  | H : not (@eq nat _ _) |- _ => revert H
  end.
Ltac nat_sizes :=
  repeat match goal with
  | |- context [@size ?T ?s] => let n := fresh "n" in move: (@size T s) => n
  end.
Ltac slia :=
  nat_hyps; nat_goal; nat_ops_in; rewrite -?plusE -?minusE -?multE;
  first [lia | nat_revert; nat_sizes; lia].

(** ** [shift]: cyclic rotation of the evaluation vector *)

Section ShiftFacts.
Variable T : Type.
Variable x0 : T.

Lemma nth_rotation (s : seq T) (k i : nat) :
  (k <= size s)%N -> (i < size s)%N ->
  nth x0 (drop k s ++ take k s) i = nth x0 s ((i + k) %% size s).
Proof.
move=> kn i_n; rewrite nth_cat size_drop.
case: ltnP => [lt_i|le_i].
  by rewrite nth_drop addnC modn_small //; slia.
rewrite nth_take; first by slia.
have -> : (i + k = (i - (size s - k)) + size s)%N by slia.
by rewrite modnDr modn_small //; slia.
Qed.

End ShiftFacts.

Section Shift.
Variable p : nat.
Implicit Types (P Q : Polynomial p).

(** C9.  On a LAGRANGE polynomial of length [n], [shift(k)] with
    [0 <= k < n] returns a LAGRANGE polynomial of the same length whose
    value at index [i] is [values[(i + k) mod n]]; [shift(k)] with [k >= n]
    fails; and [shift] on a MONOMIAL polynomial fails. *)
Theorem shift_rotates_left P :
  let n := size (values P) in
  [/\ forall k : nat, basis P = LAGRANGE -> (k < n)%N ->
        exists Q, [/\ shift P (Posz k) = Some Q, basis Q = LAGRANGE,
                      size (values Q) = n
                    & forall i, (i < n)%N ->
                        nth 0 (values Q) i = nth 0 (values P) ((i + k) %% n)],
      forall k : int, Posz n <= k -> shift P k = None
    & forall k : int, basis P = MONOMIAL -> shift P k = None].
Proof.
case: P => vs b /=; split.
- move=> k -> kn; rewrite /shift /= ltz_nat kn.
  exists (mkPolynomial (drop k vs ++ take k vs) LAGRANGE).
  rewrite /Py.slice_from /Py.slice_to /= (minn_idPl (ltnW kn)); split=> //=.
    by rewrite size_cat size_drop size_take kn subnK // ltnW.
  by move=> i i_n; rewrite nth_rotation // ltnW.
- by move=> k nk; rewrite /shift /=; case: b => //; rewrite ltNge nk.
- by move=> k ->.
Qed.

(** C10.  [shift] does not reject a negative [k]: on a LAGRANGE polynomial
    of length [n] and for [-n <= k < 0] the call succeeds, with the same
    result as [shift(n + k)], which is the rotation to the right by [|k|]
    (the value at index [i] moves to index [(i + |k|) mod n]). *)
Theorem shift_negative_rotates_right P (k : int) :
  let n := size (values P) in
  basis P = LAGRANGE -> - Posz n <= k -> k < 0 ->
  exists Q, [/\ shift P k = Some Q, shift P (Posz n + k) = Some Q
              & forall i, (i < n)%N ->
                  nth 0 (values Q) ((i + `|k|) %% n) = nth 0 (values P) i].
Proof.
case: P => vs b /= ->; case: k => // m; rewrite NegzE lerN2 lez_nat => mn _.
have n_gt0 : (0 < size vs)%N by apply: leq_ltn_trans mn.
have -> : Posz (size vs) - Posz m.+1 = Posz (size vs - m.+1) by rewrite subzn.
rewrite -NegzE /shift /= /Py.slice_from /Py.slice_to /=.
have lt_n : (size vs - m.+1 < size vs)%N by slia.
rewrite ltz_nat lt_n (minn_idPl (ltnW lt_n)).
exists (mkPolynomial
          (drop (size vs - m.+1) vs ++ take (size vs - m.+1) vs) LAGRANGE).
split=> //= i i_n; rewrite nth_rotation ?ltn_pmod ?leq_subr //.
rewrite modnDml -addnA subnKC // modnDr modn_small //.
Qed.

End Shift.

(** ** The numpy layer computes in [{poly F}] *)

Section NpDenotation.
Variable F : fieldType.
Implicit Types (c a b d s : seq F) (P Q : {poly F}).

Lemma nth_take_if s (k i : nat) :
  (take k s)`_i = if (i < k)%N then s`_i else 0.
Proof.
case: ltnP => [lt_ik|le_ki]; first by rewrite nth_take.
by rewrite nth_default // (leq_trans _ le_ki) // size_take_min geq_minl.
Qed.

Lemma Poly_takeS s (k : nat) :
  Poly (take k.+1 s) = Poly (take k s) + s`_k *: 'X^k.
Proof.
apply/polyP=> i; rewrite coefD coefZ coefXn !coef_Poly !nth_take_if ltnS.
rewrite leq_eqVlt; case: eqP => [->|_] /=.
  by rewrite ltnn add0r mulr1.
by rewrite mulr0 addr0.
Qed.

Lemma Poly_take_drop s (m : nat) :
  Poly s = Poly (take m s) + 'X^m * Poly (drop m s).
Proof.
apply/polyP=> i; rewrite coefD coefXnM !coef_Poly nth_take_if nth_drop.
by case: ltnP => [_|le_mi]; rewrite ?addr0 // add0r subnKC.
Qed.

Lemma Poly_take_zero s (k : nat) :
  (forall j, (k < j)%N -> s`_j = 0) -> Poly (take k.+1 s) = Poly s.
Proof.
move=> s0; apply/polyP=> i; rewrite !coef_Poly nth_take_if ltnS.
by case: leqP => // /s0.
Qed.

Lemma Poly_map_div s (x : F) : Poly [seq y / x | y <- s] = x^-1 *: Poly s.
Proof.
apply/polyP=> i; rewrite coefZ !coef_Poly mulrC.
case: (ltnP i (size s)) => [lt_i|le_i]; first by rewrite (nth_map 0).
by rewrite !nth_default ?size_map // mul0r.
Qed.

Lemma Poly_seq1_0 : Poly [:: 0 : F] = 0.
Proof. by rewrite /= cons_poly_def mul0r add0r. Qed.

Lemma np_reprK P : Poly (np_repr P) = P.
Proof.
by rewrite /np_repr; case: eqP => [->|_]; rewrite ?Poly_seq1_0 ?polyseqK.
Qed.

Lemma np_repr_neq_nil P : np_repr P != [::].
Proof. by rewrite /np_repr; case: eqP => // /eqP; rewrite -size_poly_eq0; case: (polyseq P). Qed.

Lemma size_np_repr P : size (np_repr P) = maxn 1 (size P).
Proof.
rewrite /np_repr; case: eqP => [->|/eqP]; first by rewrite size_poly0.
by rewrite -size_poly_gt0 => /maxn_idPr ->.
Qed.

Lemma size_np_repr_gt0 P : (0 < size (np_repr P))%N.
Proof. by rewrite size_np_repr leq_max. Qed.

Lemma last_np_repr P : (last 0 (np_repr P) == 0) = (P == 0).
Proof.
rewrite /np_repr; case: (eqVneq P 0) => [_|P_neq0] /=; first by rewrite eqxx.
by rewrite -nth_last -lead_coefE lead_coef_eq0 (negbTE P_neq0).
Qed.

Lemma np_repr_eq0 P : (np_repr P == [:: 0]) = (P == 0).
Proof.
apply/eqP/eqP=> [rP|->]; last by rewrite /np_repr eqxx.
by rewrite -(np_reprK P) rP Poly_seq1_0.
Qed.

(** An array is in numpy's normal form when it is not empty and its last
    entry is non-zero, or when it is [[0]]. *)
Lemma np_reprP s :
  s != [::] -> (last 0 s != 0) || (s == [:: 0]) -> s = np_repr (Poly s).
Proof.
move=> s_neq0 /orP[last_s|/eqP->]; last by rewrite Poly_seq1_0 /np_repr eqxx.
rewrite /np_repr (PolyK last_s); case: eqP => // /(congr1 (@polyseq F)).
by rewrite (PolyK last_s) polyseq0 => s0; rewrite s0 in s_neq0.
Qed.

Lemma trim_scan_le c (i : nat) : (Np.trim_scan c i <= i)%N.
Proof.
elim: i => [|i IHi] /=; first by case: ifP.
by case: ifP => // _; apply: leq_trans IHi _.
Qed.

Lemma trim_scan_zero c (i j : nat) :
  (Np.trim_scan c i < j <= i)%N -> c`_j = 0.
Proof.
elim: i => [|i IHi] /=; first by case: ifP => _; case: j.
case: ifP => [_ /andP[lt_j le_j]|/negbFE/eqP ci0 /andP[lt_j le_j]].
  by move: (leq_trans lt_j le_j); rewrite ltnn.
case: (eqVneq j i.+1) => [->//|ne_j]; apply: IHi; rewrite lt_j /=.
by rewrite -ltnS ltn_neqAle ne_j.
Qed.

Lemma trim_scan_stop c (i : nat) :
  (Np.trim_scan c i == 0%N) || (c`_(Np.trim_scan c i) != 0).
Proof.
elim: i => [|i IHi] /=; first by case: ifP.
by case: ifP => [->|_] //; rewrite orbT.
Qed.

Lemma trimseqE c : c != [::] -> Np.trimseq c = np_repr (Poly c).
Proof.
move=> c_neq0; rewrite /Np.trimseq size_eq0 (negbTE c_neq0) /=.
case: ifPn => [last_c|/negbNE/eqP last_c]; first by apply: np_reprP; rewrite ?last_c.
set k := Np.trim_scan c _.
have k_lt : (k < size c)%N.
  by apply: leq_ltn_trans (trim_scan_le _ _) _; case: (c) c_neq0.
have PolyE : Poly (take k.+1 c) = Poly c.
  apply: Poly_take_zero => j lt_kj; case: (leqP j (size c).-1) => [le_j|lt_j].
    by apply: (@trim_scan_zero c (size c).-1); rewrite lt_kj.
  by rewrite nth_default //; case: (size c) lt_j.
rewrite -PolyE; apply: np_reprP; first by case: (c) c_neq0.
have last_take : last 0 (take k.+1 c) = c`_k.
  by rewrite -nth_last size_take_min (minn_idPl k_lt) /= nth_take.
rewrite last_take; case/orP: (trim_scan_stop c (size c).-1) => [/eqP k0|-> //].
rewrite /k k0; case: (c) c_neq0 => //= x c' _; rewrite take0.
by case: eqP => [->|]; rewrite ?eqxx ?orbT.
Qed.

End NpDenotation.

Section NpOperations.
Variable F : fieldType.
Implicit Types (c a b d s : seq F) (P Q : {poly F}).

Lemma as_seriesE c : c != [::] -> Np.as_series c = Some (np_repr (Poly c)).
Proof. by move=> c0; rewrite /Np.as_series size_eq0 (negbTE c0) trimseqE. Qed.

Lemma size_add_into c1 c2 :
  (size c2 <= size c1)%N -> size (Np.add_into c1 c2) = size c1.
Proof.
move=> le21; rewrite /Np.add_into size_cat size_map size_zip size_drop.
by rewrite size_takel // minnn subnKC.
Qed.

Lemma Poly_add_into c1 c2 :
  (size c2 <= size c1)%N -> Poly (Np.add_into c1 c2) = Poly c1 + Poly c2.
Proof.
move=> le21; apply/polyP=> i; rewrite coefD !coef_Poly /Np.add_into nth_cat.
have sz_take : size (take (size c2) c1) = size c2 by rewrite size_takel.
rewrite size_map size_zip sz_take minnn; case: ltnP => [lt_i|le_i].
  by rewrite (nth_map (0, 0)) ?size_zip ?sz_take ?minnn // nth_zip //= nth_take.
by rewrite nth_drop subnKC // [c2`_i]nth_default // addr0.
Qed.

Lemma polyaddE a b :
  a != [::] -> b != [::] -> Np.polyadd a b = Some (np_repr (Poly a + Poly b)).
Proof.
move=> a0 b0; rewrite /Np.polyadd !as_seriesE //.
set c1 := np_repr (Poly a); set c2 := np_repr (Poly b).
have c1_neq0 : c1 != [::] := np_repr_neq_nil _.
have c2_neq0 : c2 != [::] := np_repr_neq_nil _.
case: ltnP => [/ltnW le21|le12]; rewrite trimseqE.
- by rewrite -size_eq0 size_add_into // size_eq0.
- by rewrite Poly_add_into // !np_reprK.
- by rewrite -size_eq0 size_add_into // size_eq0.
- by rewrite Poly_add_into // !np_reprK addrC.
Qed.

Lemma size_convolve c1 c2 : size (Np.convolve c1 c2) = (size c1 + size c2).-1.
Proof. by rewrite /Np.convolve size_mkseq. Qed.

Lemma foldr_mkseq_sum (f : nat -> F) (n : nat) :
  foldr +%R 0 (mkseq f n) = \sum_(j < n) f j.
Proof. by rewrite foldrE big_map -(big_mkord xpredT f) /index_iota subn0. Qed.

Lemma Poly_convolve c1 c2 : Poly (Np.convolve c1 c2) = Poly c1 * Poly c2.
Proof.
apply/polyP=> i; rewrite coefM coef_Poly.
case: (ltnP i (size c1 + size c2).-1) => [lt_i|le_i].
  rewrite nth_mkseq // foldr_mkseq_sum.
  by apply: eq_bigr => j _; rewrite !coef_Poly.
rewrite nth_default ?size_convolve // -coefM nth_default //.
apply: leq_trans (size_polyMleq _ _) _; apply: leq_trans le_i.
by rewrite -!subn1 leq_sub2r // leq_add // size_Poly.
Qed.

Lemma polymulE a b :
  a != [::] -> b != [::] -> Np.polymul a b = Some (np_repr (Poly a * Poly b)).
Proof.
move=> a0 b0; rewrite /Np.polymul !as_seriesE // trimseqE.
  rewrite -size_eq0 size_convolve.
  move: (size_np_repr_gt0 (Poly a)) (size_np_repr_gt0 (Poly b)).
  by case: (size _) => // n1 _; case: (size _) => // n2 _; rewrite addSn addnS.
by rewrite Poly_convolve !np_reprK.
Qed.

Lemma size_sub_slice c1 (i m : nat) d (x : F) :
  size d = m -> (i + m <= size c1)%N ->
  size (Np.sub_slice c1 i (i + m) d x) = size c1.
Proof.
move=> sz_d le_im.
have le_i : (i <= size c1)%N by slia.
have sz_take : size (take m (drop i c1)) = m.
  by rewrite size_takel // size_drop; slia.
rewrite /Np.sub_slice addKn !size_cat size_map size_zip sz_take sz_d minnn.
by rewrite size_takel // size_drop; slia.
Qed.

Lemma nth_sub_slice c1 (i m : nat) d (x : F) (t : nat) :
  size d = m -> (i + m <= size c1)%N ->
  (Np.sub_slice c1 i (i + m) d x)`_t =
    if (i <= t < i + m)%N then c1`_t - d`_(t - i) * x else c1`_t.
Proof.
move=> sz_d le_im; rewrite /Np.sub_slice addKn !nth_cat.
have sz_take : size (take m (drop i c1)) = m.
  by rewrite size_takel // size_drop; slia.
have le_i : (i <= size c1)%N by slia.
rewrite size_takel // size_map size_zip sz_take sz_d minnn.
case: (ltnP t i) => [lt_ti|le_it] /=; first by rewrite nth_take.
have -> : (t < i + m)%N = (t - i < m)%N.
  by apply/idP/idP=> ?; slia.
case: ltnP => [lt_m|le_m].
  rewrite (nth_map (0, 0)) ?size_zip ?sz_take ?sz_d ?minnn //.
  by rewrite nth_zip ?sz_take //= nth_take // nth_drop subnKC.
by rewrite nth_drop; congr (c1`__); slia.
Qed.

Lemma Poly_sub_slice c1 (i m : nat) d (x : F) :
  size d = m -> (i + m <= size c1)%N ->
  Poly (Np.sub_slice c1 i (i + m) d x) = Poly c1 - x *: ('X^i * Poly d).
Proof.
move=> sz_d le_im; apply/polyP=> t.
rewrite coefB coefZ coefXnM !coef_Poly nth_sub_slice //.
case: (ltnP t i) => [lt_ti|le_it] /=; first by rewrite mulr0 subr0.
case: ltnP => [_|le_t]; first by rewrite mulrC.
by rewrite [d`__]nth_default ?mulr0 ?subr0 // sz_d; slia.
Qed.

Lemma take1_drop s (m : nat) :
  (m < size s)%N -> take 1 (drop m s) = [:: s`_m].
Proof. by move=> lt_m; rewrite (drop_nth 0) //= take0. Qed.

(** The division loop: after the passes for [i], [i - 1], ..., [0], the
    entries from position [m] on are the quotient by [X^m + Poly d] and
    the array as a whole has lost that quotient times [Poly d]. *)
Lemma div_loopP d (m i : nat) c1 :
  size d = m -> (i + m < size c1)%N ->
  let c1' := Np.div_loop d m i c1 in
  [/\ size c1' = size c1,
      forall t, (i + m <= t)%N -> c1'`_t = c1`_t
    & Poly c1' = Poly c1 - Poly (take i.+1 (drop m c1')) * Poly d].
Proof.
move=> sz_d; elim: i c1 => [|i IHi] c1 lt_im /=.
  have le_im : (0 + m <= size c1)%N by slia.
  split; first by rewrite size_sub_slice.
    by move=> t le_t; rewrite nth_sub_slice // ifF //; apply/negP => /andP[? ?]; slia.
  rewrite Poly_sub_slice // expr0 mul1r.
  rewrite take1_drop ?size_sub_slice // nth_sub_slice //.
  by rewrite !add0n ltnn /= cons_poly_def polyC0 mul0r add0r mul_polyC.
set c2 := Np.sub_slice c1 i.+1 (i.+1 + m) d c1`_(i.+1 + m).
have le_im : (i.+1 + m <= size c1)%N by slia.
have sz_c2 : size c2 = size c1 by rewrite size_sub_slice.
have lt_im2 : (i + m < size c2)%N by rewrite sz_c2; slia.
have [sz_c' same_c' Poly_c'] := IHi c2 lt_im2.
set c' := Np.div_loop d m i c2 in sz_c' same_c' Poly_c' *.
have nth_c2 t : (i.+1 + m <= t)%N -> c2`_t = c1`_t.
  by move=> le_t; rewrite nth_sub_slice // ifF //; apply/negP => /andP[? ?]; slia.
split; first by rewrite sz_c'.
  by move=> t le_t; rewrite same_c' ?nth_c2 //; slia.
rewrite Poly_c' Poly_sub_slice // (Poly_takeS _ i.+1) nth_drop mulrDl -scalerAl.
rewrite [(m + i.+1)%N]addnC same_c' ?nth_c2 //.
by rewrite opprD addrA addrAC.
Qed.

End NpOperations.

Section NpDivision.
Variable F : fieldType.
Implicit Types (c a b d s : seq F) (P Q : {poly F}).

Lemma last_map_div s (x : F) : last 0 [seq y / x | y <- s] = last 0 s / x.
Proof.
rewrite -{1}(mul0r x^-1); move: (0 : F) => z.
by elim: s z => //= y s IHs z.
Qed.

Lemma map_div_np_repr P (x : F) :
  x != 0 -> [seq y / x | y <- np_repr P] = np_repr (x^-1 *: P).
Proof.
move=> x_neq0; rewrite -{2}(np_reprK P) -Poly_map_div; apply: np_reprP.
  by rewrite -size_eq0 size_map size_eq0 np_repr_neq_nil.
rewrite last_map_div mulf_eq0 invr_eq0 (negbTE x_neq0) orbF last_np_repr.
by rewrite /np_repr; case: eqP => //= _; rewrite mul0r.
Qed.

Lemma ltn_max1 (n1 n2 : nat) : (maxn 1 n1 < maxn 1 n2)%N -> (n1 < n2)%N.
Proof. by rewrite !maxnE => ?; slia. Qed.

Lemma polydiv_small P Q :
  (size (np_repr P) < size (np_repr Q))%N ->
  P %/ Q = 0 /\ P %% Q = P.
Proof.
rewrite !size_np_repr => /ltn_max1 lt_sz.
by rewrite divp_small ?modp_small.
Qed.

Lemma polydiv_const P (x : F) :
  x != 0 -> P %/ x%:P = x^-1 *: P /\ P %% x%:P = 0.
Proof.
move=> x_neq0.
have P_eq : P = (x^-1 *: P) * x%:P + 0.
  by rewrite addr0 -scalerAl mulrC mul_polyC scalerA mulVf // scale1r.
have lt_sz : (size (0%R : {poly F}) < size (x%:P : {poly F}))%N.
  by rewrite size_poly0 size_polyC x_neq0.
by rewrite {1 3}P_eq divp_addl_mul_small // modp_addl_mul_small.
Qed.

Theorem polydivE a b :
  a != [::] -> b != [::] ->
  Np.polydiv a b =
    if Poly b == 0 then None
    else Some (np_repr (Poly a %/ Poly b), np_repr (Poly a %% Poly b)).
Proof.
move=> a0 b0; rewrite /Np.polydiv !as_seriesE // last_np_repr.
set A := Poly a; set B := Poly b.
case: (eqVneq B 0) => // B_neq0.
set c1 := np_repr A; set c2 := np_repr B.
have c1_neq0 : c1 != [::] := np_repr_neq_nil _.
have take1_c1 : [seq x * 0 | x <- take 1 c1] = np_repr 0.
  rewrite /np_repr eqxx; case: (c1) c1_neq0 => //= x s _.
  by rewrite take0 /= mulr0.
case: ltnP => [lt_12|le_21].
  by have [-> ->] := polydiv_small lt_12; rewrite take1_c1.
have sz_c2 : size c2 = size B.
  by rewrite size_np_repr; apply/maxn_idPr; rewrite size_poly_gt0.
have scl_neq0 : last 0 c2 != 0 by rewrite last_np_repr.
case: eqP => [sz1|/eqP sz_neq1].
  have /size_poly1P[x x_neq0 Bx] : size B == 1%N by rewrite -sz_c2 sz1.
  have -> : last 0 c2 = x.
    by rewrite /c2 /np_repr (negbTE B_neq0) Bx polyseqC x_neq0.
  rewrite Bx; have [-> ->] := polydiv_const A x_neq0.
  by rewrite map_div_np_repr // take1_c1.
set m := (size c2).-1; set scl := last 0 c2; set dlen := (size c1 - size c2)%N.
set d := [seq x / scl | x <- take m c2].
have sz_c2_gt0 : (0 < size c2)%N := size_np_repr_gt0 _.
have m_gt0 : (0 < m)%N.
  by rewrite /m; case: (size c2) sz_c2_gt0 sz_neq1 => [|[|n]].
have sz_c2m : size c2 = m.+1 by rewrite /m prednK.
have sz_d : size d = m by rewrite size_map size_takel // sz_c2m.
have lt_dm : (dlen + m < size c1)%N.
  by rewrite /dlen; move: le_21; rewrite sz_c2m => le_21; slia.
have [] := div_loopP sz_d lt_dm.
set c1' := Np.div_loop d m dlen c1 => sz_c1' same_c1' Poly_c1'.
have sz_drop : size (drop m c1') = dlen.+1.
  by rewrite size_drop sz_c1' /dlen; move: le_21; rewrite sz_c2m => le_21; slia.
move: Poly_c1'; rewrite take_oversize ?sz_drop // np_reprK.
set Qt := Poly (drop m c1'); set R := Poly (take m c1').
set T := Poly (take m c2).
have B_eq : B = T + scl *: 'X^m.
  rewrite -(np_reprK B) -/c2 -{1}[c2]take_size sz_c2m Poly_takeS.
  by rewrite /scl -nth_last.
have D_eq : Poly d = scl^-1 *: T by rewrite Poly_map_div.
rewrite (Poly_take_drop c1' m) -/Qt -/R D_eq => /esym/eqP.
rewrite subr_eq => /eqP A_eq.
have {}A_eq : A = (scl^-1 *: Qt) * B + R.
  rewrite A_eq B_eq mulrDr -!scalerAl -!scalerAr scalerA mulVf // scale1r.
  by rewrite addrAC [RHS]addrC addrA [Qt * 'X^m]mulrC.
have lt_R : (size R < size B)%N.
  rewrite -sz_c2 sz_c2m ltnS; apply: leq_trans (size_Poly _) _.
  by rewrite size_take_min geq_minl.
congr (Some (_, _)).
  rewrite A_eq divp_addl_mul_small // -Poly_map_div; apply: np_reprP.
    by rewrite -size_eq0 size_map sz_drop.
  rewrite last_map_div mulf_eq0 invr_eq0 (negbTE scl_neq0) orbF.
  have -> : last 0 (drop m c1') = last 0 c1.
    rewrite -!nth_last sz_drop /= nth_drop same_c1' ?[(m + _)%N]addnC //.
    by congr (c1`__); rewrite /dlen; move: le_21; rewrite sz_c2m => le_21; slia.
  rewrite last_np_repr -size_poly_eq0; apply/orP; left.
  have : (1 < size c1)%N by apply: leq_trans le_21; rewrite sz_c2m ltnS.
  by rewrite size_np_repr leq_max /= => /ltnW; rewrite lt0n.
rewrite trimseqE; first by rewrite -size_eq0 size_takel ?lt0n_neq0 // sz_c1'; slia.
by rewrite A_eq modp_addl_mul_small.
Qed.

End NpDivision.

(** ** MONOMIAL arithmetic of [Polynomial] *)

Section MonomialArithmetic.
Variable p : nat.
Local Notation Scalar := 'F_p.
Implicit Types (A B Q : Polynomial p) (x y : Scalar) (P : {poly Scalar}).

Lemma monomial_of_poly P : monomial (of_poly P).
Proof. by rewrite /monomial /= np_repr_neq_nil. Qed.

Lemma poly_of_of_poly P : poly_of (of_poly P) = P.
Proof. exact: np_reprK. Qed.

Lemma add_monomial A B :
  monomial A -> monomial B ->
  __add__ A (OfPolynomial B) = Some (of_poly (poly_of A + poly_of B)).
Proof.
case: A B => [a ba] [b bb] /andP[/= /eqP -> a0] /andP[/= /eqP -> b0].
by rewrite /__add__ /= polyaddE.
Qed.

Lemma mul_monomial A B :
  monomial A -> monomial B ->
  __mul__ A (OfPolynomial B) = Some (of_poly (poly_of A * poly_of B)).
Proof.
case: A B => [a ba] [b bb] /andP[/= /eqP -> a0] /andP[/= /eqP -> b0].
by rewrite /__mul__ /= polymulE.
Qed.

Lemma Poly_seq1 y : Poly [:: y] = y%:P.
Proof. by rewrite /= cons_poly_def mul0r add0r. Qed.

Lemma mul_scalar A y :
  monomial A -> __mul__ A (OfScalar y) = Some (of_poly (y *: poly_of A)).
Proof.
case: A => [a ba] /andP[/= /eqP -> a0].
by rewrite /__mul__ /= polymulE // Poly_seq1 mulrC mul_polyC.
Qed.

Lemma truediv_scalar A y :
  monomial A ->
  __truediv__ A (OfScalar y) =
    if y == 0 then None else Some (of_poly (y^-1 *: poly_of A)).
Proof.
case: A => [a ba] /andP[/= /eqP -> a0].
rewrite /__truediv__ /= polydivE // Poly_seq1 polyC_eq0.
by case: eqP => // /eqP y_neq0; have [-> _] := polydiv_const (Poly a) y_neq0.
Qed.

Lemma truediv_monomial A B :
  monomial A -> monomial B ->
  __truediv__ A (OfPolynomial B) =
    if (poly_of B != 0) && (poly_of B %| poly_of A)
    then Some (of_poly (poly_of A %/ poly_of B)) else None.
Proof.
case: A B => [a ba] [b bb] /andP[/= /eqP -> a0] /andP[/= /eqP -> b0].
rewrite /__truediv__ /= polydivE // /poly_of /=.
case: (eqVneq (Poly b) 0) => //= _.
by rewrite np_repr_eq0 (sameP eqP (modp_eq0P _ _)).
Qed.

(** [coeff_eval] is Horner evaluation. *)
Lemma coeff_eval_loop (cs : seq Scalar) x (r w : Scalar) :
  foldl (fun st c => let x_pow := st.2 * x in (st.1 + c * x_pow, x_pow))
        (r, w) cs
  = (r + w * x * horner_rec cs x, w * x ^+ size cs).
Proof.
elim: cs r w => [|c cs IHcs] r w /=; first by rewrite mulr0 addr0 expr0 mulr1.
by rewrite IHcs /= exprS; congr (_, _); ring.
Qed.

Lemma coeff_evalE A x : monomial A -> coeff_eval A x = Some (poly_of A).[x].
Proof.
case: A => [[|c cs] ba] /andP[/= /eqP -> // _].
rewrite /coeff_eval /= coeff_eval_loop /= /poly_of /= horner_cons horner_Poly.
by rewrite mul1r addrC mulrC.
Qed.

End MonomialArithmetic.

(** ** Exact division *)

Section ExactDivision.
Variable p : nat.
Local Notation Scalar := 'F_p.
Implicit Types (A B Q : Polynomial p) (c : {poly Scalar}).

Lemma truediv_empty_divisor A B :
  basis B = MONOMIAL -> values B = [::] ->
  __truediv__ A (OfPolynomial B) = None.
Proof.
case: A B => [a ba] [b bb] /= -> ->; rewrite /__truediv__ /=.
case: ba => //=; rewrite /Np.polydiv.
by case: (Np.as_series a).
Qed.

(** C7.  Dividing a MONOMIAL polynomial [A] (a coefficient vector with at
    least one entry) by a MONOMIAL polynomial [B] succeeds exactly when [B]
    is a factor of [A], that is, when [B] is not the zero polynomial and
    [A = c * B] for some polynomial [c]; the result is then that quotient
    [c].  When no such [c] exists, and when [B] is zero, the division
    fails. *)
Theorem truediv_exact_division A B :
  monomial A -> basis B = MONOMIAL ->
  [/\ forall c, poly_of B != 0 -> poly_of A = c * poly_of B ->
        __truediv__ A (OfPolynomial B) = Some (of_poly c),
      (forall c, poly_of A <> c * poly_of B) ->
        __truediv__ A (OfPolynomial B) = None,
      poly_of B = 0 -> __truediv__ A (OfPolynomial B) = None
    & forall Q, __truediv__ A (OfPolynomial B) = Some Q ->
        [/\ poly_of B != 0, basis Q = MONOMIAL
          & poly_of A = poly_of Q * poly_of B]].
Proof.
move=> monoA basisB; case: (eqVneq (values B) [::]) => [B_nil|B_neq_nil].
  have B0 : poly_of B = 0 by rewrite /poly_of B_nil.
  by rewrite truediv_empty_divisor // B0 eqxx; split.
have monoB : monomial B by rewrite /monomial basisB eqxx.
rewrite truediv_monomial //; split.
- move=> c B_neq0 A_eq; rewrite B_neq0 A_eq dvdp_mull ?dvdpp //=.
  by rewrite mulpK.
- move=> not_factor; case: ifP => // /andP[_ /divpK A_eq].
  by case: (not_factor (poly_of A %/ poly_of B)).
- by move=> ->; rewrite eqxx.
- move=> Q; case: ifP => // /andP[B_neq0 /divpK A_eq] [<-].
  by rewrite poly_of_of_poly A_eq.
Qed.

End ExactDivision.

(** ** Loops over [range(n)] *)

Section Loops.
Variables (S T : Type).

(** An invariant carried through a [for i in range(n)] loop whose body
    never raises while the invariant holds. *)
Lemma for_range_inv (n : nat) (body : S -> nat -> option S) (st : S)
    (Inv : nat -> S -> Prop) :
  Inv 0%N st ->
  (forall i a, (i < n)%N -> Inv i a ->
     exists2 a', body a i = Some a' & Inv i.+1 a') ->
  exists2 a, Py.for_range n body st = Some a & Inv n a.
Proof.
rewrite /Py.for_range => Inv0 step.
have loop m : forall k a, (k + m = n)%N -> Inv k a ->
    exists2 a', foldl (fun acc i => if acc is Some a then body a i else None)
                      (Some a) (iota k m) = Some a' & Inv n a'.
  elim: m => [|m IHm] k a /=; first by rewrite addn0 => <- ?; exists a.
  rewrite addnS => kmn Inv_k.
  have lt_kn : (k < n)%N by rewrite -kmn ltnS leq_addr.
  have [a' -> Inv_a'] := step k a lt_kn Inv_k.
  by apply: IHm; rewrite ?addSn.
exact: (loop n 0%N st (add0n n) Inv0).
Qed.

(** The same when the state after [i] passes is a known [f i]. *)
Lemma for_range_fun (n : nat) (body : S -> nat -> option S) (f : nat -> S) :
  (forall i, (i < n)%N -> body (f i) i = Some (f i.+1)) ->
  Py.for_range n body (f 0%N) = Some (f n).
Proof.
move=> step.
have [//|i a lt_i ->|a -> -> //] :=
  @for_range_inv n body (f 0%N) (fun i a => a = f i).
by exists (f i.+1); first exact: step.
Qed.

Lemma get_nth (x0 : T) (s : seq T) (i : nat) :
  (i < size s)%N -> Py.get s i = Some (nth x0 s i).
Proof. by move=> lt_i; rewrite /Py.get (drop_nth x0). Qed.

End Loops.

(** ** [InterpolationPoly]: vanishing polynomial, its derivative, the
    Lagrange basis and the interpolant *)

Arguments __add__ : simpl never.
Arguments __mul__ : simpl never.
Arguments __truediv__ : simpl never.
Arguments coeff_eval : simpl never.

Section Interpolation.
Variable p : nat.
Local Notation Scalar := 'F_p.
Implicit Types (X Y : seq Scalar) (x y : Scalar) (V : {poly Scalar}).

Lemma np_repr_polyC (F : fieldType) (c : F) : np_repr c%:P = [:: c].
Proof. by rewrite /np_repr polyC_eq0 polyseqC; case: eqP => [->|]. Qed.

Lemma const_polyE x : InterpolationPoly.const_poly x = of_poly x%:P.
Proof. by rewrite /of_poly np_repr_polyC. Qed.

Lemma root_polyE x : poly_of (InterpolationPoly.root_poly x) = 'X - x%:P.
Proof.
rewrite /poly_of /= !cons_poly_def mul0r add0r polyC1 mul1r.
by rewrite polyCN.
Qed.

Lemma monomial_root_poly x : monomial (InterpolationPoly.root_poly x).
Proof. by []. Qed.

Lemma vanishing_rcons X x : vanishing (rcons X x) = vanishing X * ('X - x%:P).
Proof. by rewrite /vanishing big_rcons. Qed.

Lemma root_vanishing X x : root (vanishing X) x = (x \in X).
Proof. exact: root_prod_XsubC. Qed.

Lemma vanishing_polyE X Y :
  InterpolationPoly.vanishing_poly (InterpolationPoly.Build (size X) X Y)
  = Some (of_poly (vanishing X)).
Proof.
rewrite /InterpolationPoly.vanishing_poly /=.
pose f i := of_poly (vanishing (take i X)).
have -> : InterpolationPoly.const_poly 1 = f 0%N.
  by rewrite /f take0 /vanishing big_nil const_polyE polyC1.
have -> : of_poly (vanishing X) = f (size X) by rewrite /f take_size.
apply: for_range_fun => i lt_i.
rewrite (get_nth 0) // mul_monomial ?monomial_of_poly ?monomial_root_poly //.
by rewrite /f poly_of_of_poly root_polyE (take_nth 0) // vanishing_rcons.
Qed.

Lemma truediv_root V x :
  root V x ->
  __truediv__ (of_poly V) (OfPolynomial (InterpolationPoly.root_poly x))
  = Some (of_poly (V %/ ('X - x%:P))).
Proof.
move=> root_x; rewrite truediv_monomial ?monomial_of_poly ?monomial_root_poly //.
by rewrite poly_of_of_poly root_polyE polyXsubC_eq0 dvdp_XsubCl root_x.
Qed.

Lemma vanishing_poly_diffE X Y :
  InterpolationPoly.vanishing_poly_diff (InterpolationPoly.Build (size X) X Y)
  = Some (of_poly (\sum_(x <- X) vanishing X %/ ('X - x%:P))).
Proof.
rewrite /InterpolationPoly.vanishing_poly_diff vanishing_polyE /=.
pose f i := of_poly (\sum_(x <- take i X) vanishing X %/ ('X - x%:P)).
have -> : InterpolationPoly.const_poly 0 = f 0%N.
  by rewrite /f take0 big_nil const_polyE.
have -> : of_poly (\sum_(x <- X) vanishing X %/ ('X - x%:P)) = f (size X).
  by rewrite /f take_size.
apply: for_range_fun => i lt_i.
rewrite (get_nth 0) // truediv_root ?root_vanishing ?mem_nth //.
rewrite add_monomial ?monomial_of_poly // !poly_of_of_poly.
by rewrite /f (take_nth 0) // big_rcons.
Qed.

(** The sum of the quotients is the formal derivative (product rule). *)
Lemma deriv_vanishing X :
  (vanishing X)^`() = \sum_(x <- X) vanishing X %/ ('X - x%:P).
Proof.
rewrite /vanishing; elim: X => [|y X IHX]; first by rewrite !big_nil derivC.
rewrite !big_cons derivM derivXsubC mul1r IHX mulKp ?polyXsubC_eq0 //.
congr (_ + _); rewrite mulr_sumr; apply: eq_big_seq => x x_in /=.
by rewrite divp_mulA // dvdp_XsubCl root_prod_XsubC.
Qed.

End Interpolation.

Section LagrangeBasis.
Variable p : nat.
Local Notation Scalar := 'F_p.
Implicit Types (X Y : seq Scalar) (x y z : Scalar).

Lemma quotientK X x : x \in X -> quotient X x * ('X - x%:P) = vanishing X.
Proof. by move=> x_in; rewrite divpK // dvdp_XsubCl root_vanishing. Qed.

Lemma size_quotient X x : size (quotient X x) = size X.
Proof.
rewrite /quotient size_divp ?polyXsubC_eq0 // size_XsubC /vanishing.
by rewrite size_prod_XsubC subn1.
Qed.

Lemma horner_quotient_other X x z :
  x \in X -> z \in X -> z != x -> (quotient X x).[z] = 0.
Proof.
move=> x_in z_in z_neq_x; have := root_vanishing X z.
rewrite z_in -(quotientK x_in) rootE hornerM hornerXsubC mulf_eq0 subr_eq0.
by rewrite (negbTE z_neq_x) orbF => /eqP.
Qed.

Lemma quotient_rem X x :
  x \in X -> quotient X x = \prod_(y <- rem x X) ('X - y%:P).
Proof.
move=> x_in; rewrite /quotient /vanishing (perm_big _ (perm_to_rem x_in)) /=.
by rewrite big_cons mulKp // polyXsubC_eq0.
Qed.

Lemma horner_quotient_self X x :
  uniq X -> x \in X -> (quotient X x).[x] != 0.
Proof.
move=> uniq_X x_in; rewrite quotient_rem // horner_prod prodf_seq_neq0.
apply/allP=> y; rewrite mem_rem_uniq // inE /= hornerXsubC subr_eq0 eq_sym.
by case/andP.
Qed.

Lemma horner_deriv_vanishing X x :
  x \in X -> (vanishing X)^`().[x] = (quotient X x).[x].
Proof.
move=> x_in; rewrite -(quotientK x_in) derivM derivXsubC mulr1.
by rewrite hornerD hornerM hornerXsubC subrr mulr0 add0r.
Qed.

Lemma horner_lagrange_self X x :
  uniq X -> x \in X -> (lagrange X x).[x] = 1.
Proof.
by move=> uniq_X x_in; rewrite /lagrange hornerZ mulVf // horner_quotient_self.
Qed.

Lemma horner_lagrange_other X x z :
  x \in X -> z \in X -> z != x -> (lagrange X x).[z] = 0.
Proof.
move=> x_in z_in z_neq.
by rewrite /lagrange hornerZ (horner_quotient_other x_in z_in z_neq) mulr0.
Qed.

Lemma size_lagrange X x : (size (lagrange X x) <= size X)%N.
Proof. by rewrite -(size_quotient X x) size_scale_leq. Qed.

Lemma init_some X Y ip :
  InterpolationPoly.__init__ X Y = Some ip ->
  ip = InterpolationPoly.Build (size X) X Y /\ size X = size Y.
Proof. by rewrite /InterpolationPoly.__init__; case: eqP => // ? [<-]. Qed.

Lemma lagrange_polyE X Y (i : nat) :
  uniq X -> (i < size X)%N ->
  InterpolationPoly.lagrange_poly (InterpolationPoly.Build (size X) X Y) (Posz i)
  = Some (of_poly (lagrange X X`_i)).
Proof.
move=> uniq_X lt_i; have x_in : X`_i \in X by rewrite mem_nth.
rewrite /InterpolationPoly.lagrange_poly vanishing_polyE vanishing_poly_diffE.
rewrite /Py.index /= (get_nth 0) // coeff_evalE ?monomial_of_poly //.
rewrite poly_of_of_poly -deriv_vanishing horner_deriv_vanishing //.
rewrite truediv_root ?root_vanishing // truediv_scalar ?monomial_of_poly //.
by rewrite poly_of_of_poly (negbTE (horner_quotient_self uniq_X x_in)).
Qed.

Lemma polyE X Y :
  uniq X -> size X = size Y ->
  InterpolationPoly.poly (InterpolationPoly.Build (size X) X Y)
  = Some (of_poly (interpolant X Y)).
Proof.
move=> uniq_X sz_XY; rewrite /InterpolationPoly.poly /=.
pose f k := of_poly (\sum_(0 <= i < k) Y`_i *: lagrange X X`_i).
have -> : InterpolationPoly.const_poly 0 = f 0%N.
  by rewrite /f big_nil const_polyE.
rewrite -/(f (size X)); apply: for_range_fun => i lt_i.
rewrite lagrange_polyE // (get_nth 0) -?sz_XY // mul_scalar ?monomial_of_poly //.
rewrite add_monomial ?monomial_of_poly // !poly_of_of_poly.
by rewrite /f big_nat_recr.
Qed.

Lemma size_interpolant X Y : (size (interpolant X Y) <= size X)%N.
Proof.
rewrite /interpolant; elim/big_ind: _ => [|P Q le_P le_Q|i _].
- by rewrite size_poly0.
- by apply: leq_trans (size_polyD _ _) _; rewrite geq_max le_P.
- exact: leq_trans (size_scale_leq _ _) (size_lagrange _ _).
Qed.

Lemma horner_interpolant X Y (j : nat) :
  uniq X -> (j < size X)%N -> (interpolant X Y).[X`_j] = Y`_j.
Proof.
move=> uniq_X lt_j; rewrite /interpolant horner_sum.
rewrite (bigD1_seq j) ?iota_uniq ?mem_index_iota //=.
rewrite hornerZ horner_lagrange_self ?mem_nth // mulr1 big_seq_cond big1.
  move=> i; rewrite mem_index_iota /= => /andP[lt_i i_neq_j].
  rewrite hornerZ horner_lagrange_other ?mulr0 ?mem_nth //.
  by rewrite nth_uniq // eq_sym.
by rewrite addr0.
Qed.

End LagrangeBasis.

Section InterpolationTheorems.
Variable p : nat.
Local Notation Scalar := 'F_p.
Implicit Types (X Y : seq Scalar) (ip : InterpolationPoly.t p).

(** C8.  For an [InterpolationPoly] built from [(X, Y)], each of the [n]
    divisions of [vanishing_poly()] by [X - X[i]] made by
    [vanishing_poly_diff()] succeeds, its result [q i] multiplied back by
    [X - X[i]] being the vanishing polynomial (zero remainder);
    [vanishing_poly_diff()] is the sum of these quotients, and it is the
    formal derivative of [vanishing_poly()]. *)
Theorem vanishing_poly_diff_derivative X Y ip :
  InterpolationPoly.__init__ X Y = Some ip ->
  exists V D (q : nat -> Polynomial p),
    [/\ InterpolationPoly.vanishing_poly ip = Some V,
        InterpolationPoly.vanishing_poly_diff ip = Some D,
        forall i, (i < size X)%N ->
          __truediv__ V (OfPolynomial (InterpolationPoly.root_poly X`_i))
            = Some (q i)
          /\ poly_of (q i) * poly_of (InterpolationPoly.root_poly X`_i)
             = poly_of V,
        poly_of D = \sum_(0 <= i < size X) poly_of (q i)
      & poly_of D = (poly_of V)^`()].
Proof.
case/init_some=> -> _.
exists (of_poly (vanishing X)),
       (of_poly (\sum_(x <- X) vanishing X %/ ('X - x%:P))),
       (fun i => of_poly (quotient X X`_i)).
split.
- exact: vanishing_polyE.
- exact: vanishing_poly_diffE.
- move=> i lt_i; have x_in : X`_i \in X by rewrite mem_nth.
  rewrite truediv_root ?root_vanishing //; split=> //.
  by rewrite !poly_of_of_poly root_polyE quotientK.
- rewrite poly_of_of_poly (big_nth 0); apply: eq_bigr => i _.
  by rewrite poly_of_of_poly.
- by rewrite !poly_of_of_poly deriv_vanishing.
Qed.

(** C6.  For an [InterpolationPoly] with pairwise-distinct [X] and indices
    [i], [j] below [n], [lagrange_poly(i)] returns a polynomial whose
    [coeff_eval] is 1 at [X[i]] and 0 at [X[j]] whenever [j != i]. *)
Theorem lagrange_poly_orthogonal X Y ip (i j : nat) :
  InterpolationPoly.__init__ X Y = Some ip -> uniq X ->
  (i < size X)%N -> (j < size X)%N ->
  exists L,
    [/\ InterpolationPoly.lagrange_poly ip (Posz i) = Some L,
        coeff_eval L X`_i = Some 1
      & j != i -> coeff_eval L X`_j = Some 0].
Proof.
case/init_some=> -> _ uniq_X lt_i lt_j.
exists (of_poly (lagrange X X`_i)); split; first exact: lagrange_polyE.
  by rewrite coeff_evalE ?monomial_of_poly // poly_of_of_poly
             horner_lagrange_self ?mem_nth.
move=> j_neq_i; rewrite coeff_evalE ?monomial_of_poly // poly_of_of_poly.
by rewrite horner_lagrange_other ?mem_nth // nth_uniq.
Qed.

(** C1.  For an [InterpolationPoly] built from equal-length [X] and [Y]
    with pairwise-distinct [X], [poly()] returns a MONOMIAL polynomial of
    degree at most [n - 1] (its polynomial has at most [n] coefficients up
    to the leading one, and the returned vector at most [max(n, 1)]
    entries) whose [coeff_eval] at every [X[i]] is [Y[i]]. *)
Theorem poly_interpolates X Y ip :
  InterpolationPoly.__init__ X Y = Some ip -> uniq X ->
  exists P,
    [/\ InterpolationPoly.poly ip = Some P,
        basis P = MONOMIAL,
        (size (poly_of P) <= size X)%N /\ (size (values P) <= maxn 1 (size X))%N
      & forall i, (i < size X)%N -> coeff_eval P X`_i = Some Y`_i].
Proof.
case/init_some=> -> sz_XY uniq_X.
exists (of_poly (interpolant X Y)); split=> //; first exact: polyE.
  rewrite poly_of_of_poly size_interpolant /= size_np_repr.
  by rewrite geq_max !leq_max leqnn size_interpolant orbT.
move=> i lt_i; rewrite coeff_evalE ?monomial_of_poly // poly_of_of_poly.
by rewrite horner_interpolant.
Qed.

End InterpolationTheorems.

(** ** The radix-2 transform

    *** Slices with stride 2 *)

Section EvensOdds.
Variables (T : Type) (x0 : T).
Implicit Types (s : seq T).

Lemma seq_ind2 (P : seq T -> Prop) :
  P [::] -> (forall a, P [:: a]) ->
  (forall a b s, P s -> P [:: a, b & s]) -> forall s, P s.
Proof.
move=> P0 P1 P2 s.
have [] : P s /\ forall a, P (a :: s); last by [].
by elim: s => [|b s [IHs IHas]]; split=> // a; apply: P2.
Qed.

Lemma nth_evens s (i : nat) : nth x0 (Py.evens s) i = nth x0 s i.*2.
Proof.
elim/seq_ind2: s i => [|a|a b s IHs] i; rewrite ?nth_nil //.
  by case: i => [|i] //=; rewrite !nth_nil.
by case: i => [|i] //=; rewrite IHs.
Qed.

Lemma nth_odds s (i : nat) : nth x0 (Py.odds s) i = nth x0 s i.*2.+1.
Proof. by rewrite /Py.odds nth_evens nth_behead. Qed.

Lemma size_evens s : size (Py.evens s) = uphalf (size s).
Proof. by elim/seq_ind2: s => [|a|a b s IHs] //=; rewrite IHs. Qed.

Lemma size_odds s : size (Py.odds s) = (size s)./2.
Proof. by rewrite /Py.odds size_evens size_behead; case: (size s). Qed.

Lemma set_some (o : seq T) (i : nat) (v : T) :
  (i < size o)%N ->
  exists o', [/\ Py.set o i v = Some o', size o' = size o
               & forall t, nth x0 o' t = if t == i then v else nth x0 o t].
Proof.
move=> lt_i; rewrite /Py.set lt_i; eexists; split; first by [].
  by rewrite size_cat /= size_drop size_takel; slia.
move=> t; rewrite nth_cat size_takel; first exact: ltnW.
case: (ltngtP t i) => [lt_t|gt_t|->]; first by rewrite nth_take.
  by rewrite -(subnSK gt_t) /= nth_drop; congr (nth _ _ _); slia.
by rewrite subnn.
Qed.

End EvensOdds.

Lemma evens_map (T1 T2 : Type) (f : T1 -> T2) (s : seq T1) :
  Py.evens [seq f x | x <- s] = [seq f x | x <- Py.evens s].
Proof. by elim/seq_ind2: s => [|a|a b s IHs] //=; rewrite IHs. Qed.

Lemma odds_map (T1 T2 : Type) (f : T1 -> T2) (s : seq T1) :
  Py.odds [seq f x | x <- s] = [seq f x | x <- Py.odds s].
Proof. by rewrite /Py.odds -evens_map; case: s. Qed.

(** Splitting a polynomial into its even and odd coefficients. *)
Lemma horner_evens_odds (F : fieldType) (s : seq F) (x : F) :
  (Poly s).[x]
  = (Poly (Py.evens s)).[x ^+ 2] + x * (Poly (Py.odds s)).[x ^+ 2].
Proof.
rewrite !horner_Poly.
elim/seq_ind2: s => [|a|a b s IHs] /=; rewrite ?mulr0 ?addr0 ?mul0r //.
by case: s IHs => [|c s] /= ->; rewrite /Py.odds /=; ring.
Qed.

(** *** The combine loop *)

Section Butterfly.
Variables (modulus : int) (roots : seq int) (lenL : nat).

Lemma butterflyP (LR : seq (int * int)) (i : nat) (o : seq int) :
  (i + size LR <= lenL)%N -> (lenL + i + size LR <= size o)%N ->
  (i + size LR <= size roots)%N ->
  exists o',
    [/\ butterfly modulus roots lenL i LR o = Some o',
        size o' = size o,
        forall k, (k < size LR)%N ->
          nth 0 o' (i + k)
          = (((nth (0, 0) LR k).1 + (nth (0, 0) LR k).2 * nth 0 roots (i + k))
               %% modulus)%Z,
        forall k, (k < size LR)%N ->
          nth 0 o' (lenL + i + k)
          = (((nth (0, 0) LR k).1 - (nth (0, 0) LR k).2 * nth 0 roots (i + k))
               %% modulus)%Z
      & forall t, ((i <= t)%N -> (t < i + size LR)%N -> False) ->
          ((lenL + i <= t)%N -> (t < lenL + i + size LR)%N -> False) ->
          nth 0 o' t = nth 0 o t].
Proof.
elim: LR i o => [|[x y] LR IHLR] i o /= le_L le_o le_r.
  by exists o; split.
rewrite (get_nth 0); first by slia.
have [|o1 [-> sz_o1 nth_o1]] := @set_some _ 0 o i
    ((x + y * nth 0 roots i) %% modulus)%Z; first by slia.
have [|o2 [-> sz_o2 nth_o2]] := @set_some _ 0 o1 (i + lenL)
    ((x - y * nth 0 roots i) %% modulus)%Z; first by rewrite sz_o1; slia.
have [|||o' [-> sz_o' lo_o' hi_o' out_o']] := IHLR i.+1 o2.
- by slia.
- by rewrite sz_o2 sz_o1; slia.
- by slia.
have lenL_gt0 : (0 < lenL)%N by slia.
exists o'; split=> //; first by rewrite sz_o' sz_o2.
- case=> [_|k lt_k] /=; last by rewrite -!addSnnS lo_o'.
  rewrite addn0 out_o' ?nth_o2 ?nth_o1 ?eqxx; try by move=> ? ?; slia.
  by rewrite ifF //; apply/eqP; slia.
- case=> [_|k lt_k] /=.
    rewrite !addn0 out_o' ?nth_o2; try by move=> ? ?; slia.
    by rewrite [(lenL + i)%N]addnC eqxx.
  by rewrite -!addSnnS -addnS hi_o'.
- move=> t out_lo out_hi; rewrite out_o'.
  + by move=> ? ?; apply: out_lo; slia.
  + by move=> ? ?; apply: out_hi; slia.
  rewrite nth_o2 nth_o1 !ifF //; apply/eqP => t_eq.
  + by apply: out_hi; slia.
  + by apply: out_lo; slia.
Qed.

End Butterfly.

(** *** Recursion depth of [_fft] *)

Section Fuel.
Implicit Types (vals roots res : seq int) (modulus : int).

(** On an empty list the recursion never reaches its base case. *)
Lemma _fft_empty (fuel : nat) modulus roots :
  _fft fuel [::] modulus roots = None.
Proof. by elim: fuel roots => [|fuel IHfuel] roots //=; rewrite IHfuel. Qed.

(** A result obtained within some depth is the result at any larger depth. *)
Lemma _fft_fuel_mono (f1 f2 : nat) vals modulus roots res :
  (f1 <= f2)%N -> _fft f1 vals modulus roots = Some res ->
  _fft f2 vals modulus roots = Some res.
Proof.
elim: f1 f2 vals roots res => [|f1 IHf1] [|f2] vals roots res //=.
rewrite ltnS => le_f; case: ifP => // _.
case L_eq : (_fft f1 _ _ _) => [L|] //; rewrite (IHf1 _ _ _ _ le_f L_eq).
by case R_eq : (_fft f1 _ _ _) => [R|] //; rewrite (IHf1 _ _ _ _ le_f R_eq).
Qed.

End Fuel.

(** *** [_fft] evaluates at the powers of the root *)

Section FFTSpec.
Variable p : nat.
Hypothesis p_prime : prime p.
Local Notation Scalar := 'F_p.
Implicit Types (x r : Scalar) (z : int).

Lemma of_int_n_of x : of_int p (n_of x) = x.
Proof. by rewrite /of_int /n_of -pmulrn natr_Zp. Qed.

Lemma of_int_modz z : of_int p (z %% field_modulus p)%Z = of_int p z.
Proof.
rewrite /of_int /field_modulus [in RHS](divz_eq z (Posz p)) intrD intrM.
by rewrite -[(Posz p)%:~R]pmulrn pchar_Fp_0 // mulr0 add0r.
Qed.

Lemma map_of_int_n_of (s : seq Scalar) :
  [seq of_int p z | z <- [seq n_of x | x <- s]] = s.
Proof. by rewrite -map_comp map_id_in // => x _ /=; rewrite of_int_n_of. Qed.

Lemma expn2_neq1 (k : nat) : (2 ^ k.+1 == 1)%N = false.
Proof. by apply/eqP => /(congr1 odd); rewrite expnS oddM. Qed.

Lemma horner_seq1 (a x : Scalar) : (Poly [:: a]).[x] = a.
Proof. by rewrite horner_Poly /= mul0r add0r. Qed.

Lemma _fft_spec (k : nat) :
  forall (fuel : nat) (vals roots : seq int) r,
  (k < fuel)%N -> size vals = (2 ^ k)%N -> size roots = (2 ^ k)%N ->
  (forall i, (i < 2 ^ k)%N -> of_int p roots`_i = r ^+ i) ->
  ((0 < k)%N -> r ^+ (2 ^ k.-1) = -1) ->
  exists res,
    [/\ _fft fuel vals (field_modulus p) roots = Some res,
        size res = (2 ^ k)%N
      & forall i, (i < 2 ^ k)%N ->
          of_int p res`_i = (Poly [seq of_int p v | v <- vals]).[r ^+ i]].
Proof.
elim: k => [|k IHk] [|fuel] vals roots r //.
  rewrite expn0 => _ sz_v _ _ _; exists vals; rewrite /= sz_v eqxx; split=> //.
  case=> // _; case: vals sz_v => [|v [|? ?]] //= _.
  by rewrite -[cons_poly _ _]/(Poly [:: of_int p v]) horner_seq1.
rewrite ltnS => lt_k sz_v sz_r roots_r half_r /=.
have -> : (size vals == 1%N) = false by rewrite sz_v expn2_neq1.
have sz2 : (2 ^ k.+1 = (2 ^ k).*2)%N by rewrite expnS mul2n.
have sz_ev : size (Py.evens vals) = (2 ^ k)%N.
  by rewrite size_evens sz_v sz2 uphalf_double.
have sz_ov : size (Py.odds vals) = (2 ^ k)%N.
  by rewrite size_odds sz_v sz2 doubleK.
have sz_er : size (Py.evens roots) = (2 ^ k)%N.
  by rewrite size_evens sz_r sz2 uphalf_double.
have roots_r2 i : (i < 2 ^ k)%N -> of_int p (Py.evens roots)`_i = (r ^+ 2) ^+ i.
  by move=> lt_i; rewrite nth_evens roots_r ?sz2 ?ltn_double // -mul2n exprM.
have half_r2 : (0 < k)%N -> (r ^+ 2) ^+ (2 ^ k.-1) = -1.
  by move=> k_gt0; rewrite -exprM -expnS prednK // half_r.
have [L [-> sz_L nth_L]] := IHk fuel _ _ _ lt_k sz_ev sz_er roots_r2 half_r2.
have [R [-> sz_R nth_R]] := IHk fuel _ _ _ lt_k sz_ov sz_er roots_r2 half_r2.
have sz_LR : size (zip L R) = (2 ^ k)%N by rewrite size_zip sz_L sz_R minnn.
have [|||o' [-> sz_o' lo_o' hi_o' _]] :=
  @butterflyP (field_modulus p) roots (size L) (zip L R) 0
              (nseq (size vals) 0).
- by rewrite sz_LR sz_L.
- by rewrite size_nseq sz_LR sz_L sz_v sz2 addn0 addnn.
- by rewrite sz_LR sz_r sz2 -addnn leq_addr.
exists o'; split=> //; first by rewrite sz_o' size_nseq.
move=> i lt_i; rewrite horner_evens_odds evens_map odds_map.
have r_half : r ^+ (2 ^ k) = -1 by rewrite -[k]/(k.+1.-1) half_r.
case: (ltnP i (2 ^ k)) => [lt_ik|le_ki].
  rewrite -[i]add0n lo_o' ?sz_LR // of_int_modz add0n nth_zip ?sz_L //=.
  rewrite /of_int intrD intrM -!/(of_int p _) nth_L // nth_R // roots_r //.
  by rewrite exprAC mulrC.
have lt_j : (i - 2 ^ k < 2 ^ k)%N by rewrite ltn_subLR // addnn -sz2.
have -> : i = (size L + 0 + (i - 2 ^ k))%N by rewrite addn0 sz_L subnKC.
rewrite hi_o' ?sz_LR // of_int_modz add0n nth_zip ?sz_L //=.
rewrite /of_int intrB intrM -!/(of_int p _) nth_L // nth_R // roots_r.
  by apply: leq_trans lt_j _; rewrite sz2 -addnn leq_addr.
rewrite addn0 exprD r_half mulN1r sqrrN exprAC.
by rewrite /of_int mulNr [r ^+ _ * _]mulrC.
Qed.

End FFTSpec.

(** *** The evaluation domain *)

Section Domain.
Variable p : nat.
Hypothesis p_prime : prime p.
Local Notation Scalar := 'F_p.
Variables (n : nat) (rs : seq Scalar).
Hypothesis rs_contract : roots_contract n rs.

(** The generator of the domain. *)
Let w : Scalar := nth 1 rs 1.

Lemma contract_rs : rs = [seq w ^+ i | i <- iota 0 n].
Proof. by case/and3P: rs_contract => /eqP. Qed.

Lemma contract_uniq : uniq rs.
Proof. by case/and3P: rs_contract. Qed.

Lemma contract_expr : w ^+ n = 1.
Proof. by case/and3P: rs_contract => _ _ /eqP. Qed.

Lemma contract_size : size rs = n.
Proof. by rewrite contract_rs size_map size_iota. Qed.

Lemma contract_nth (i : nat) : (i < n)%N -> rs`_i = w ^+ i.
Proof.
by move=> lt_i; rewrite [in LHS]contract_rs (nth_map 0%N) ?size_iota // nth_iota.
Qed.

Lemma contract_prim_root : (0 < n)%N -> n.-primitive_root w.
Proof.
move=> n_gt0; have [m prim_m m_dvd] := prim_order_exists n_gt0 contract_expr.
have m_gt0 := prim_order_gt0 prim_m.
have := dvdn_leq n_gt0 m_dvd; rewrite leq_eqVlt => /predU1P[<- //|lt_mn].
have := nth_uniq 0 (_ : (m < size rs)%N) (_ : (0 < size rs)%N) contract_uniq.
rewrite !contract_size => /(_ lt_mn n_gt0).
by rewrite !contract_nth // (prim_expr_order prim_m) expr0 eqxx eqn0Ngt m_gt0.
Qed.

Lemma contract_unit : (0 < n)%N -> w != 0.
Proof.
move=> n_gt0; apply/eqP => w0; have := contract_expr.
by rewrite w0 expr0n eqn0Ngt n_gt0 => /eqP; rewrite eq_sym oner_eq0.
Qed.

Lemma contract_natr_neq0 : (0 < n)%N -> n%:R != 0 :> Scalar.
Proof. by move=> /contract_prim_root /prim_root_natf_neq0. Qed.

Lemma contract_exprV (i : nat) : (i <= n)%N -> w ^+ (n - i) = w^-1 ^+ i.
Proof.
move=> le_i; have n_gt0_or : (i == 0%N) || (0 < n)%N.
  by case: (i) le_i => // i' /(leq_trans _); apply.
case/orP: n_gt0_or => [/eqP ->|n_gt0]; first by rewrite subn0 contract_expr.
by rewrite exprB ?unitfE ?contract_unit // contract_expr div1r exprVn.
Qed.

End Domain.

Section DomainHalf.
Variable p : nat.
Local Notation Scalar := 'F_p.
Variables (k : nat) (rs : seq Scalar).
Hypothesis rs_contract : roots_contract (2 ^ k) rs.

Lemma contract_half : (0 < k)%N -> (nth 1 rs 1) ^+ (2 ^ k.-1) = -1.
Proof.
move=> k_gt0; set w := nth 1 rs 1; set h := (2 ^ k.-1)%N.
have n_gt0 : (0 < 2 ^ k)%N by rewrite expn_gt0.
have prim_w := contract_prim_root rs_contract n_gt0.
have h2 : (2 ^ k = 2 * h)%N by rewrite /h -expnS prednK.
have : (w ^+ h) ^+ 2 == 1.
  by rewrite -exprM mulnC -h2 (contract_expr rs_contract).
rewrite sqrf_eq1 -(prim_order_dvd prim_w) => /orP[|/eqP //].
by rewrite gtnNdvd ?expn_gt0 // h2 mul2n -addnn -[X in (X < _)%N]addn0 ltn_add2l expn_gt0.
Qed.

End DomainHalf.

(** *** [fft] and [ifft] on a domain of size [2 ^ k] *)

Arguments _fft : simpl never.

Section Transforms.
Variable p : nat.
Hypothesis p_prime : prime p.
Local Notation Scalar := 'F_p.
Variable roots_of_unity : nat -> seq Scalar.
Variable k : nat.
Hypothesis domain_contract : roots_contract (2 ^ k) (roots_of_unity (2 ^ k)).
Implicit Types (P Q : Polynomial p).

Let n := (2 ^ k)%N.
Let w : Scalar := nth 1 (roots_of_unity n) 1.

Let n_gt0 : (0 < n)%N.
Proof. by rewrite /n expn_gt0. Qed.

(** The forward transform evaluates the polynomial at [w^0 .. w^(n-1)]. *)
Lemma fftE P :
  basis P = MONOMIAL -> size (values P) = n ->
  fft roots_of_unity P false
  = Some (mkPolynomial [seq (poly_of P).[w ^+ i] | i <- iota 0 n] LAGRANGE).
Proof.
case: P => vs b /= -> sz_vs; rewrite /fft /= sz_vs -/n.
have [] := @_fft_spec p p_prime k (size [seq n_of x | x <- vs])
    [seq n_of x | x <- vs] [seq n_of x | x <- roots_of_unity n] w.
- by rewrite size_map sz_vs ltn_expl.
- by rewrite size_map.
- by rewrite size_map (contract_size domain_contract).
- move=> i lt_i; rewrite (nth_map 0) ?(contract_size domain_contract) //.
  by rewrite of_int_n_of // (contract_nth domain_contract).
- exact: (contract_half domain_contract).
move=> res [-> sz_res nth_res]; congr (Some (mkPolynomial _ _)).
apply: (@eq_from_nth _ 0); first by rewrite !size_map size_iota.
move=> i; rewrite size_map sz_res => lt_i.
rewrite (nth_map 0) ?sz_res // nth_res // map_of_int_n_of //.
by rewrite (nth_map 0%N) ?size_iota // nth_iota.
Qed.

(** The inverse transform evaluates at the inverse powers and scales. *)
Lemma ifftE P :
  basis P = LAGRANGE -> size (values P) = n ->
  ifft roots_of_unity P
  = Some (mkPolynomial
            [seq (poly_of P).[w^-1 ^+ i] * (1 / n%:R) | i <- iota 0 n]
            MONOMIAL).
Proof.
case: P => vs b /= -> sz_vs; rewrite /ifft /fft /= sz_vs -/n.
rewrite /sdiv (negbTE (contract_natr_neq0 domain_contract n_gt0)).
have sz_rs : size (roots_of_unity n) = n := contract_size domain_contract.
case rs_eq : (roots_of_unity n) sz_rs => [|r0 rs'] /= sz_rs'.
  by move: n_gt0; rewrite -sz_rs'.
have nth_rs i : (i < n)%N -> (r0 :: rs')`_i = w ^+ i.
  by move=> lt_i; rewrite -rs_eq (contract_nth domain_contract).
have [] := @_fft_spec p p_prime k (size [seq n_of x | x <- vs])
    [seq n_of x | x <- vs]
    (n_of r0 :: rev [seq n_of x | x <- rs']) w^-1.
- by rewrite size_map sz_vs ltn_expl.
- by rewrite size_map.
- by rewrite /= size_rev size_map.
- case=> [_|i lt_i] /=.
    by rewrite of_int_n_of // expr0; have /= -> := nth_rs 0%N n_gt0.
  have lt_i' : (i < size rs')%N by move: lt_i; rewrite -/n -sz_rs'.
  rewrite nth_rev ?size_map // (nth_map 0); first by slia.
  rewrite of_int_n_of // -(contract_exprV domain_contract) ?(ltnW lt_i) //.
  have -> : (2 ^ k - i.+1)%N = (size rs' - i.+1).+1.
    by rewrite -/n -sz_rs'; slia.
  by rewrite -(nth_rs (size rs' - i.+1).+1) // -sz_rs'; slia.
- move=> k_gt0; rewrite exprVn (contract_half domain_contract) //.
  exact: invrN1.
move=> res [-> sz_res nth_res]; congr (Some (mkPolynomial _ _)).
apply: (@eq_from_nth _ 0); first by rewrite !size_map size_iota.
move=> i; rewrite size_map sz_res => lt_i.
rewrite (nth_map 0) ?sz_res // nth_res // map_of_int_n_of //.
by rewrite (nth_map 0%N) ?size_iota // nth_iota.
Qed.

End Transforms.

(** *** Round trip *)

Lemma horner_Poly_sum (F : fieldType) (s : seq F) (x : F) (n : nat) :
  size s = n -> (Poly s).[x] = \sum_(i < n) s`_i * x ^+ i.
Proof.
move=> sz_s; rewrite (@horner_coef_wide _ n) -?sz_s ?size_Poly //.
by apply: eq_bigr => i _; rewrite coef_Poly.
Qed.

Section RoundTrip.
Variable p : nat.
Hypothesis p_prime : prime p.
Local Notation Scalar := 'F_p.
Variable roots_of_unity : nat -> seq Scalar.
Variable k : nat.
Hypothesis domain_contract : roots_contract (2 ^ k) (roots_of_unity (2 ^ k)).
Implicit Types (P Q : Polynomial p).

Let n := (2 ^ k)%N.
Let w : Scalar := nth 1 (roots_of_unity n) 1.

Let n_gt0 : (0 < n)%N.
Proof. by rewrite /n expn_gt0. Qed.

Let w_neq0 : w != 0.
Proof. exact: (contract_unit domain_contract n_gt0). Qed.

(** The powers of [w] are orthogonal to those of its inverse. *)
Lemma geometric_orthogonal (m j : nat) :
  (m < n)%N -> (j < n)%N ->
  \sum_(i < n) (w ^+ m * w^-1 ^+ j) ^+ i = if m == j then n%:R else 0.
Proof.
move=> lt_m lt_j; set y := w ^+ m * _.
have prim_w := contract_prim_root domain_contract n_gt0.
case: eqP => [m_eq_j|/eqP m_neq_j].
  have -> : y = 1 by rewrite /y m_eq_j -exprMn divff // expr1n.
  rewrite (eq_bigr (fun _ => 1)) => [i _|]; first by rewrite expr1n.
  by rewrite sumr_const card_ord.
have yn : y ^+ n = 1.
  rewrite /y exprMn exprAC (contract_expr domain_contract) expr1n mul1r.
  by rewrite exprAC exprVn (contract_expr domain_contract) invr1 expr1n.
have y_neq1 : y != 1.
  apply/eqP => y_eq; case/negP: m_neq_j.
  have : w ^+ m = w ^+ j.
    by rewrite -[w ^+ j]mul1r -y_eq /y -mulrA -exprMn mulVf // expr1n mulr1.
  by move/eqP; rewrite (eq_prim_root_expr prim_w) !modn_small.
have /eqP := subrX1 y n; rewrite yn subrr eq_sym mulf_eq0 subr_eq0.
by rewrite (negbTE y_neq1) /= => /eqP.
Qed.

(** C2.  For a MONOMIAL polynomial whose length is a power of two, over a
    prime field and a domain that meets the contract of [roots_of_unity],
    [fft] succeeds and [ifft] of its result is the polynomial itself. *)
Theorem fft_ifft_roundtrip P :
  basis P = MONOMIAL -> size (values P) = (2 ^ k)%N ->
  exists Q, fft roots_of_unity P false = Some Q
            /\ ifft roots_of_unity Q = Some P.
Proof.
move=> basisP sz_P; rewrite (fftE p_prime domain_contract) //.
eexists; split; first by [].
rewrite (ifftE p_prime domain_contract) ?size_map ?size_iota //=.
case: P basisP sz_P => vs b /= -> sz_vs; congr (Some (mkPolynomial _ _)).
apply: (@eq_from_nth _ 0); first by rewrite size_map size_iota sz_vs.
move=> j; rewrite size_map size_iota => lt_j.
rewrite (nth_map 0%N) ?size_iota // nth_iota // add0n /poly_of /=.
rewrite -/n -/w (@horner_Poly_sum _ _ _ n) ?size_map ?size_iota //.
rewrite (eq_bigr (fun i : 'I_n =>
           \sum_(m < n) vs`_m * (w ^+ m * w^-1 ^+ j) ^+ i)).
  move=> i _; rewrite (nth_map 0%N) ?size_iota // nth_iota // add0n.
  rewrite (@horner_Poly_sum _ _ _ n) // big_distrl /=.
  by apply: eq_bigr => m _; rewrite -mulrA exprAC -exprMn.
rewrite exchange_big /=.
rewrite (eq_bigr (fun m : 'I_n =>
           vs`_m * (if (m : nat) == j then n%:R else 0))).
  by move=> m _; rewrite -mulr_sumr geometric_orthogonal.
rewrite (bigD1 (Ordinal lt_j)) //= eqxx big1 => [m m_neq_j|].
  by rewrite -val_eqE /= in m_neq_j; rewrite (negbTE m_neq_j) mulr0.
rewrite addr0 mul1r mulfK //.
exact: (contract_natr_neq0 domain_contract n_gt0).
Qed.

End RoundTrip.

(** ** Barycentric evaluation *)

Section Barycentric.
Variable p : nat.
Hypothesis p_prime : prime p.
Local Notation Scalar := 'F_p.
Variable roots_of_unity : nat -> seq Scalar.
Implicit Types (P Q : Polynomial p) (x r : Scalar).

Lemma n_of_mod x : (n_of x %% field_modulus p)%Z = n_of x.
Proof.
have lt_x : (val x < p)%N.
  by apply: leq_trans (ltn_ord x) _; rewrite pdiv_id // Zp_cast // prime_gt1.
by rewrite /n_of /field_modulus modz_nat modn_small.
Qed.

Lemma eq_intE x r : eq_int r (n_of x %% field_modulus p)%Z = (r == x).
Proof. by rewrite n_of_mod /eq_int /n_of eqz_nat val_eqE. Qed.

Lemma root_indexE x (rs : seq Scalar) :
  root_index x rs = if x \in rs then Some (index x rs) else None.
Proof.
rewrite /root_index (eq_has (eq_intE x)) (eq_find (eq_intE x)).
by rewrite -/(pred1 x) has_pred1.
Qed.

(** C4.  Over a prime field and a domain that meets the contract of
    [roots_of_unity], [barycentric_eval] of a LAGRANGE polynomial of length
    [n] at the [i]-th domain root finds that root at position [i] of
    [roots_of_unity(n)] and returns [values[i]] from that lookup. *)
Theorem barycentric_eval_at_root P (i : nat) :
  basis P = LAGRANGE ->
  roots_contract (size (values P)) (roots_of_unity (size (values P))) ->
  (i < size (values P))%N ->
  root_index (roots_of_unity (size (values P)))`_i
             (roots_of_unity (size (values P))) = Some i
  /\ barycentric_eval roots_of_unity P (roots_of_unity (size (values P)))`_i
     = Some (values P)`_i.
Proof.
case: P => vs b /= -> rs_contract lt_i.
have sz_rs := contract_size rs_contract.
have idx : root_index (roots_of_unity (size vs))`_i (roots_of_unity (size vs))
           = Some i.
  rewrite root_indexE mem_nth ?sz_rs // index_uniq ?sz_rs //.
  exact: contract_uniq rs_contract.
by split=> //; rewrite /barycentric_eval /= idx (get_nth 0).
Qed.

Lemma barycentric_termsE x (pairs : seq (Scalar * Scalar)) :
  all (fun vr => x != vr.2) pairs ->
  barycentric_terms x pairs
  = Some [seq vr.1 * vr.2 / (x - vr.2) | vr <- pairs].
Proof.
elim: pairs => [|[v r] pairs IHpairs] //= /andP[x_neq_r /IHpairs ->].
by rewrite /sdiv subr_eq0 (negbTE x_neq_r).
Qed.

Lemma foldl_addE (s : seq Scalar) (z : Scalar) :
  foldl +%R z s = z + \sum_(t <- s) t.
Proof.
elim: s z => [|t s IHs] z /=; first by rewrite big_nil addr0.
by rewrite IHs big_cons addrA.
Qed.

Variable k : nat.
Hypothesis domain_contract : roots_contract (2 ^ k) (roots_of_unity (2 ^ k)).

Let n := (2 ^ k)%N.
Let w : Scalar := nth 1 (roots_of_unity n) 1.

Let n_gt0 : (0 < n)%N.
Proof. by rewrite /n expn_gt0. Qed.

Lemma barycentric_evalE P x :
  basis P = LAGRANGE -> size (values P) = n -> x \notin roots_of_unity n ->
  barycentric_eval roots_of_unity P x
  = Some ((x ^+ n - 1) / n%:R
          * \sum_(i < n) (values P)`_i * w ^+ i / (x - w ^+ i)).
Proof.
case: P => vs b /= -> sz_vs x_notin; rewrite /barycentric_eval /= sz_vs.
have sz_rs : size (roots_of_unity n) = n := contract_size domain_contract.
rewrite root_indexE (negbTE x_notin) /sdiv.
rewrite (negbTE (contract_natr_neq0 domain_contract n_gt0)).
have sz_zip : size (zip vs (roots_of_unity n)) = n.
  by rewrite size_zip sz_vs sz_rs minnn.
rewrite barycentric_termsE; last first.
  rewrite foldl_addE add0r big_map (big_nth (0, 0)) sz_zip big_mkord.
  congr (Some (_ * _)); apply: eq_bigr => i _.
  by rewrite nth_zip ?sz_vs //= (contract_nth domain_contract).
apply/(all_nthP (0, 0)) => i; rewrite sz_zip => lt_i.
rewrite nth_zip ?sz_vs //=; apply: contraNneq x_notin => ->.
by rewrite mem_nth ?sz_rs.
Qed.

(** The closed form of the geometric sum that turns the coefficient form
    into the barycentric form. *)
Lemma barycentric_geometric x (i : nat) :
  (i < n)%N -> x \notin roots_of_unity n ->
  \sum_(j < n) (w^-1 ^+ i * x) ^+ j = (x ^+ n - 1) * w ^+ i / (x - w ^+ i).
Proof.
move=> lt_i x_notin; set a := w ^+ i.
have w_neq0 := contract_unit domain_contract n_gt0.
have a_neq0 : a != 0 by rewrite expf_neq0.
have x_neq_a : x - a != 0.
  rewrite subr_eq0; apply: contraNneq x_notin => ->.
  rewrite /a /w /n -(contract_nth domain_contract) // mem_nth //.
  by rewrite (contract_size domain_contract).
have an : a ^+ n = 1.
  by rewrite /a exprAC (contract_expr domain_contract) expr1n.
rewrite exprVn -/a; set y := a^-1 * x.
have y_neq1 : y - 1 != 0.
  rewrite /y subr_eq0; apply: contraNneq x_neq_a => ax.
  by rewrite -[x]mul1r -(divff a_neq0) -mulrA ax mulr1 subrr.
apply: (mulfI y_neq1); rewrite -subrX1 /y exprMn exprVn an invr1 mul1r.
by field; rewrite a_neq0 x_neq_a.
Qed.

(** C5.  For a LAGRANGE polynomial of power-of-two length, over a prime
    field and a domain that meets the contract of [roots_of_unity], and a
    point [x] that is not a domain root, [barycentric_eval] and
    [ifft] followed by [coeff_eval] both succeed and agree. *)
Theorem barycentric_eval_ifft P x :
  basis P = LAGRANGE -> size (values P) = (2 ^ k)%N ->
  x \notin roots_of_unity (2 ^ k) ->
  exists y Q,
    [/\ barycentric_eval roots_of_unity P x = Some y,
        ifft roots_of_unity P = Some Q
      & coeff_eval Q x = Some y].
Proof.
move=> basisP sz_P x_notin.
rewrite barycentric_evalE // (ifftE p_prime domain_contract) //.
eexists; eexists; split; [by [] | by [] |].
have n_neq0 := contract_natr_neq0 domain_contract n_gt0.
rewrite coeff_evalE; last first.
  rewrite /poly_of /= (@horner_Poly_sum _ _ _ n) ?size_map ?size_iota //.
  congr Some; rewrite mulr_sumr.
  rewrite [LHS](eq_bigr (fun j : 'I_n =>
     \sum_(i < n) (values P)`_i / n%:R * (w^-1 ^+ i * x) ^+ j)).
    move=> j _; rewrite (nth_map 0%N) ?size_iota // nth_iota // add0n.
    rewrite (@horner_Poly_sum _ _ _ n) // !big_distrl /=.
    apply: eq_bigr => i _; rewrite exprMn -/w [_ ^+ i ^+ j]exprAC.
    by rewrite mul1r; ring.
  rewrite [LHS]exchange_big /=; apply: eq_bigr => i _.
  rewrite -mulr_sumr barycentric_geometric //.
  by rewrite -/w; ring.
by rewrite /monomial /= -size_eq0 size_map size_iota -/n -lt0n n_gt0.
Qed.

End Barycentric.

(** ** The toy field of modulus 5 *)

Lemma polynomial_eqP (p : nat) (o : option (Polynomial p)) vs b :
  omap (@values p) o == Some vs -> omap (@basis p) o = Some b ->
  o = Some (mkPolynomial vs b).
Proof. by case: o => [[vs' b']|] //= /eqP[->] [->]. Qed.

(** C3.  In the toy field, [roots_of_unity(4)] is [[1, 2, 4, 3]], [fft] of
    the MONOMIAL polynomial [[1, 2, 3, 4]] is the LAGRANGE polynomial
    [[0, 4, 3, 2]], and [ifft] of the latter is the former. *)
Theorem toy_field_fft :
  [/\ toy_roots 4 = [:: 1; 2%:R; 4%:R; 3%:R],
      fft toy_roots toy_coeffs false = Some toy_evals
    & ifft toy_roots toy_evals = Some toy_coeffs].
Proof.
split; first by apply/eqP; vm_compute.
- by apply: polynomial_eqP; vm_compute.
- by apply: polynomial_eqP; vm_compute.
Qed.

(** ** The theorems at the toy field *)

Lemma toy_prime : prime 5.
Proof. by []. Qed.

Lemma toy_contract : roots_contract (2 ^ 2) (toy_roots (2 ^ 2)).
Proof. by vm_compute. Qed.

Lemma shift_negative_rotates_right_witness :
  exists Q, [/\ shift toy_evals (- 1) = Some Q,
                shift toy_evals (Posz 4 + - 1) = Some Q
              & forall i, (i < 4)%N ->
                  nth 0 (values Q) ((i + `|(- 1 : int)|) %% 4)
                  = nth 0 (values toy_evals) i].
Proof. by apply: (@shift_negative_rotates_right 5 toy_evals (- 1)). Defined.

Lemma truediv_exact_division_witness :
  [/\ forall c, poly_of toy_divisor != 0 ->
        poly_of toy_dividend = c * poly_of toy_divisor ->
        __truediv__ toy_dividend (OfPolynomial toy_divisor) = Some (of_poly c),
      (forall c, poly_of toy_dividend <> c * poly_of toy_divisor) ->
        __truediv__ toy_dividend (OfPolynomial toy_divisor) = None,
      poly_of toy_divisor = 0 ->
        __truediv__ toy_dividend (OfPolynomial toy_divisor) = None
    & forall Q, __truediv__ toy_dividend (OfPolynomial toy_divisor) = Some Q ->
        [/\ poly_of toy_divisor != 0, basis Q = MONOMIAL
          & poly_of toy_dividend = poly_of Q * poly_of toy_divisor]].
Proof. by apply: (@truediv_exact_division 5 toy_dividend toy_divisor). Defined.

Lemma vanishing_poly_diff_derivative_witness :
  exists V D (q : nat -> Polynomial 5),
    [/\ InterpolationPoly.vanishing_poly toy_ip = Some V,
        InterpolationPoly.vanishing_poly_diff toy_ip = Some D,
        forall i, (i < size toy_X)%N ->
          __truediv__ V (OfPolynomial (InterpolationPoly.root_poly toy_X`_i))
            = Some (q i)
          /\ poly_of (q i) * poly_of (InterpolationPoly.root_poly toy_X`_i)
             = poly_of V,
        poly_of D = \sum_(0 <= i < size toy_X) poly_of (q i)
      & poly_of D = (poly_of V)^`()].
Proof. by apply: (@vanishing_poly_diff_derivative 5 toy_X toy_Y toy_ip). Defined.

Lemma lagrange_poly_orthogonal_witness :
  exists L,
    [/\ InterpolationPoly.lagrange_poly toy_ip (Posz 0) = Some L,
        coeff_eval L toy_X`_0 = Some 1
      & 1%N != 0%N -> coeff_eval L toy_X`_1 = Some 0].
Proof.
by apply: (@lagrange_poly_orthogonal 5 toy_X toy_Y toy_ip 0 1).
Defined.

Lemma poly_interpolates_witness :
  exists P,
    [/\ InterpolationPoly.poly toy_ip = Some P,
        basis P = MONOMIAL,
        (size (poly_of P) <= size toy_X)%N
        /\ (size (values P) <= maxn 1 (size toy_X))%N
      & forall i, (i < size toy_X)%N -> coeff_eval P toy_X`_i = Some toy_Y`_i].
Proof. by apply: (@poly_interpolates 5 toy_X toy_Y toy_ip). Defined.

Lemma fft_ifft_roundtrip_witness :
  exists Q, fft toy_roots toy_coeffs false = Some Q
            /\ ifft toy_roots Q = Some toy_coeffs.
Proof.
exact: (@fft_ifft_roundtrip 5 toy_prime toy_roots 2 toy_contract toy_coeffs
          (erefl _) (erefl _)).
Defined.

Lemma barycentric_eval_at_root_witness :
  root_index (toy_roots 4)`_1 (toy_roots 4) = Some 1%N
  /\ barycentric_eval toy_roots toy_evals (toy_roots 4)`_1
     = Some (values toy_evals)`_1.
Proof.
exact: (@barycentric_eval_at_root 5 toy_prime toy_roots toy_evals 1
          (erefl _) toy_contract isT).
Defined.

Lemma barycentric_eval_ifft_witness :
  exists y Q,
    [/\ barycentric_eval toy_roots toy_evals 0 = Some y,
        ifft toy_roots toy_evals = Some Q
      & coeff_eval Q 0 = Some y].
Proof.
apply: (@barycentric_eval_ifft 5 toy_prime toy_roots 2 toy_contract
          toy_evals 0) => //.
Defined.

(** ** Subtraction, and how the operators of [Polynomial] compose *)

Section NpSubtraction.
Variable F : fieldType.
Implicit Types (c a b : seq F).

Lemma size_sub_from c1 c2 :
  (size c2 <= size c1)%N -> size (Np.sub_from c1 c2) = size c1.
Proof.
move=> le21; rewrite /Np.sub_from size_cat size_map size_zip size_drop.
by rewrite size_takel // minnn subnKC.
Qed.

Lemma Poly_sub_from c1 c2 :
  (size c2 <= size c1)%N -> Poly (Np.sub_from c1 c2) = Poly c1 - Poly c2.
Proof.
move=> le21; apply/polyP=> i; rewrite coefB !coef_Poly /Np.sub_from nth_cat.
have sz_take : size (take (size c2) c1) = size c2 by rewrite size_takel.
rewrite size_map size_zip sz_take minnn; case: ltnP => [lt_i|le_i].
  by rewrite (nth_map (0, 0)) ?size_zip ?sz_take ?minnn // nth_zip //= nth_take.
by rewrite nth_drop subnKC // [c2`_i]nth_default // subr0.
Qed.

Lemma Poly_map_opp c : Poly [seq - x | x <- c] = - Poly c.
Proof.
apply/polyP=> i; rewrite coefN !coef_Poly.
case: (ltnP i (size c)) => [lt_i|le_i]; first by rewrite (nth_map 0).
by rewrite !nth_default ?size_map // oppr0.
Qed.

Lemma polysubE a b :
  a != [::] -> b != [::] -> Np.polysub a b = Some (np_repr (Poly a - Poly b)).
Proof.
move=> a0 b0; rewrite /Np.polysub !as_seriesE //.
set c1 := np_repr (Poly a); set c2 := np_repr (Poly b).
have c1_neq0 : c1 != [::] := np_repr_neq_nil _.
have c2_neq0 : c2 != [::] := np_repr_neq_nil _.
case: ltnP => [/ltnW le21|le12]; rewrite trimseqE.
- by rewrite -size_eq0 size_sub_from // size_eq0.
- by rewrite Poly_sub_from // !np_reprK.
- by rewrite -size_eq0 size_add_into ?size_map // size_eq0.
- by rewrite Poly_add_into ?size_map // Poly_map_opp !np_reprK addrC.
Qed.

Lemma Poly_eq0 c : (Poly c == 0) = all (pred1 0) c.
Proof.
elim: c => [|x c IHc] /=; first by rewrite eqxx.
by rewrite -size_poly_eq0 size_cons_poly -IHc -size_poly_eq0 andbC; case: ifP.
Qed.

Lemma normal_np_repr (P : {poly F}) : normal (np_repr P).
Proof.
by rewrite /normal np_repr_neq_nil /= last_np_repr np_repr_eq0 orNb.
Qed.

End NpSubtraction.

Section OperatorLaws.
Variable p : nat.
Local Notation Scalar := 'F_p.
Implicit Types (A B S Q : Polynomial p) (x c : Scalar).

Lemma sub_monomial A B :
  monomial A -> monomial B ->
  __sub__ A (OfPolynomial B) = Some (of_poly (poly_of A - poly_of B)).
Proof.
case: A B => [a ba] [b bb] /andP[/= /eqP -> a0] /andP[/= /eqP -> b0].
by rewrite /__sub__ /= polysubE.
Qed.

Lemma trimmedE A : monomial A -> trimmed A = of_poly (poly_of A).
Proof.
case: A => a ba /andP[/= /eqP -> a0].
by rewrite /trimmed /of_poly /poly_of /= trimseqE.
Qed.

Lemma has_nonzero A :
  has (fun c => c != 0) (values A) = (poly_of A != 0).
Proof. by rewrite /poly_of Poly_eq0 -has_predC; apply: eq_has. Qed.

(** A MONOMIAL operator that returns has been given two coefficient
    arrays that numpy accepts. *)
Lemma monomial_operands A B S :
  basis A = MONOMIAL ->
  [\/ __add__ A (OfPolynomial B) = Some S,
      __sub__ A (OfPolynomial B) = Some S,
      __mul__ A (OfPolynomial B) = Some S
    | __truediv__ A (OfPolynomial B) = Some S] ->
  monomial A /\ monomial B.
Proof.
case: A B => [a ba] [b bb] /= ->.
rewrite /monomial /__add__ /__sub__ /__mul__ /__truediv__ /=.
rewrite /Np.polyadd /Np.polysub /Np.polymul /Np.polydiv /Np.as_series.
rewrite -!size_eq0.
by case: bb; case: (size a == 0%N); case: (size b == 0%N) => /=; case.
Qed.

(** X1.  [coeff_eval] on a MONOMIAL polynomial with at least one coefficient
    returns the sum of [values[i] * x^i]; on a LAGRANGE polynomial and on an
    empty coefficient list it fails. *)
Theorem coeff_eval_horner A x :
  coeff_eval A x
  = if monomial A
    then Some (\sum_(i < size (values A)) (values A)`_i * x ^+ i)
    else None.
Proof.
case: ifP => [mA|].
  by rewrite coeff_evalE // /poly_of (@horner_Poly_sum _ _ x _ (erefl _)).
by rewrite /monomial /coeff_eval; case: (basis A) => //=; case: (values A).
Qed.

(** X2.  Evaluation commutes with MONOMIAL addition and subtraction: the
    sum and the difference of two polynomials evaluate, at every point, to
    the sum and the difference of their values. *)
Theorem coeff_eval_add_sub A B x :
  monomial A -> monomial B ->
  exists S D a b,
    [/\ __add__ A (OfPolynomial B) = Some S
        /\ __sub__ A (OfPolynomial B) = Some D,
        coeff_eval A x = Some a, coeff_eval B x = Some b,
        coeff_eval S x = Some (a + b) & coeff_eval D x = Some (a - b)].
Proof.
move=> mA mB; rewrite add_monomial // sub_monomial //.
exists (of_poly (poly_of A + poly_of B)), (of_poly (poly_of A - poly_of B)).
exists (poly_of A).[x], (poly_of B).[x].
rewrite !coeff_evalE ?monomial_of_poly // !poly_of_of_poly.
by rewrite !hornerD hornerN.
Qed.

(** X3.  Evaluation commutes with MONOMIAL multiplication, and a division
    that returns gives a quotient whose value times the divisor's value is
    the dividend's value. *)
Theorem coeff_eval_mul_truediv A B x :
  monomial A -> monomial B ->
  exists M a b,
    [/\ __mul__ A (OfPolynomial B) = Some M,
        coeff_eval A x = Some a, coeff_eval B x = Some b,
        coeff_eval M x = Some (a * b)
      & forall Q, __truediv__ A (OfPolynomial B) = Some Q ->
          exists2 q, coeff_eval Q x = Some q & a = q * b].
Proof.
move=> mA mB; rewrite mul_monomial // truediv_monomial //.
exists (of_poly (poly_of A * poly_of B)), (poly_of A).[x], (poly_of B).[x].
rewrite !coeff_evalE ?monomial_of_poly // !poly_of_of_poly hornerM.
split=> // Q; case: ifP => // /andP[_ dvd_BA] [<-].
exists (poly_of A %/ poly_of B).[x].
  by rewrite coeff_evalE ?monomial_of_poly // poly_of_of_poly.
by rewrite -hornerM divpK.
Qed.

(** X4.  MONOMIAL subtraction undoes addition: [(A + B) - B] is [A] with
    its trailing zero coefficients stripped. *)
Theorem add_sub_cancel A B :
  monomial A -> monomial B ->
  exists S, __add__ A (OfPolynomial B) = Some S
            /\ __sub__ S (OfPolynomial B) = Some (trimmed A).
Proof.
move=> mA mB; rewrite add_monomial //; eexists; split; first by [].
by rewrite sub_monomial ?monomial_of_poly // poly_of_of_poly addrK trimmedE.
Qed.

(** X5.  MONOMIAL division undoes multiplication: [(A * B) / B] is [A] with
    its trailing zero coefficients stripped when [B] has a non-zero
    coefficient, and fails when all the coefficients of [B] are zero. *)
Theorem mul_truediv_cancel A B :
  monomial A -> monomial B ->
  exists M, __mul__ A (OfPolynomial B) = Some M
            /\ __truediv__ M (OfPolynomial B)
               = if has (fun c => c != 0) (values B) then Some (trimmed A)
                 else None.
Proof.
move=> mA mB; rewrite mul_monomial //; eexists; split; first by [].
rewrite truediv_monomial ?monomial_of_poly // poly_of_of_poly has_nonzero.
rewrite dvdp_mulIr andbT; case: ifP => // B_neq0.
by rewrite mulpK // trimmedE.
Qed.

(** X6.  On a MONOMIAL polynomial a [Scalar] operand acts as the constant
    polynomial of that value, for each of the four operators. *)
Theorem scalar_operand_constant A c :
  basis A = MONOMIAL ->
  [/\ __add__ A (OfScalar c)
      = __add__ A (OfPolynomial (InterpolationPoly.const_poly c)),
      __sub__ A (OfScalar c)
      = __sub__ A (OfPolynomial (InterpolationPoly.const_poly c)),
      __mul__ A (OfScalar c)
      = __mul__ A (OfPolynomial (InterpolationPoly.const_poly c))
    & __truediv__ A (OfScalar c)
      = __truediv__ A (OfPolynomial (InterpolationPoly.const_poly c))].
Proof.
case: A => a ba /= ->; split; rewrite /__add__ /__sub__ /__mul__ /= ?eqxx //.
rewrite /__truediv__ /=.
case: (eqVneq a [::]) => [->|a0]; first by [].
rewrite polydivE // Poly_seq1 polyC_eq0.
case: eqP => // /eqP c_neq0.
by have [_ ->] := polydiv_const (Poly a) c_neq0; rewrite np_repr_eq0 eqxx.
Qed.

(** X7.  The four operators reject a [Polynomial] operand of the other
    basis, and a LAGRANGE operand of another length. *)
Theorem operators_reject_mismatch A B :
  (basis A != basis B)
  || (basis A == LAGRANGE) && (size (values A) != size (values B)) ->
  [/\ __add__ A (OfPolynomial B) = None, __sub__ A (OfPolynomial B) = None,
      __mul__ A (OfPolynomial B) = None
    & __truediv__ A (OfPolynomial B) = None].
Proof.
case: A B => [a ba] [b bb] /=.
rewrite /__add__ /__sub__ /__mul__ /__truediv__ /=.
case/orP => [/negbTE -> //|/andP[/eqP -> /negbTE ->]].
by case: ifP.
Qed.

(** X8.  MONOMIAL arithmetic rejects an empty coefficient list, as either
    operand of each of the four operators. *)
Theorem monomial_rejects_empty A B :
  basis A = MONOMIAL -> (values A == [::]) || (values B == [::]) ->
  [/\ __add__ A (OfPolynomial B) = None, __sub__ A (OfPolynomial B) = None,
      __mul__ A (OfPolynomial B) = None
    & __truediv__ A (OfPolynomial B) = None].
Proof.
move=> basisA empty; split.
all: case op_eq : (_ A _) => [S|] //.
all: have [] := @monomial_operands A B S basisA.
all: try by [constructor 1 | constructor 2 | constructor 3 | constructor 4].
all: by rewrite /monomial => /andP[_ /negbTE A0] /andP[_ /negbTE B0];
        move: empty; rewrite A0 B0.
Qed.

(** X9.  Whatever a MONOMIAL operator returns for a [Polynomial] operand is
    a MONOMIAL polynomial in numpy's normal form: at least one coefficient,
    and no trailing zero unless it is the single coefficient 0. *)
Theorem monomial_results_normal A B S :
  basis A = MONOMIAL ->
  [\/ __add__ A (OfPolynomial B) = Some S,
      __sub__ A (OfPolynomial B) = Some S,
      __mul__ A (OfPolynomial B) = Some S
    | __truediv__ A (OfPolynomial B) = Some S] ->
  basis S = MONOMIAL /\ normal (values S).
Proof.
move=> basisA ops; have [mA mB] := monomial_operands basisA ops.
case: ops; rewrite ?add_monomial ?sub_monomial ?mul_monomial ?truediv_monomial //.
- by case=> <-; split=> //; apply: normal_np_repr.
- by case=> <-; split=> //; apply: normal_np_repr.
- by case=> <-; split=> //; apply: normal_np_repr.
- by case: ifP => // _ [<-]; split=> //; apply: normal_np_repr.
Qed.

End OperatorLaws.

(** *** The operator laws at the toy field *)

Lemma coeff_eval_add_sub_witness :
  exists S D a b,
    [/\ __add__ toy_dividend (OfPolynomial toy_divisor) = Some S
        /\ __sub__ toy_dividend (OfPolynomial toy_divisor) = Some D,
        coeff_eval toy_dividend 2%:R = Some a,
        coeff_eval toy_divisor 2%:R = Some b,
        coeff_eval S 2%:R = Some (a + b) & coeff_eval D 2%:R = Some (a - b)].
Proof. by apply: (@coeff_eval_add_sub 5 toy_dividend toy_divisor 2%:R). Defined.

Lemma coeff_eval_mul_truediv_witness :
  exists M a b,
    [/\ __mul__ toy_dividend (OfPolynomial toy_divisor) = Some M,
        coeff_eval toy_dividend 2%:R = Some a,
        coeff_eval toy_divisor 2%:R = Some b,
        coeff_eval M 2%:R = Some (a * b)
      & forall Q, __truediv__ toy_dividend (OfPolynomial toy_divisor) = Some Q ->
          exists2 q, coeff_eval Q 2%:R = Some q & a = q * b].
Proof.
by apply: (@coeff_eval_mul_truediv 5 toy_dividend toy_divisor 2%:R).
Defined.

Lemma add_sub_cancel_witness :
  exists S, __add__ toy_dividend (OfPolynomial toy_divisor) = Some S
            /\ __sub__ S (OfPolynomial toy_divisor) = Some (trimmed toy_dividend).
Proof. by apply: (@add_sub_cancel 5 toy_dividend toy_divisor). Defined.

Lemma mul_truediv_cancel_witness :
  exists M, __mul__ toy_dividend (OfPolynomial toy_divisor) = Some M
            /\ __truediv__ M (OfPolynomial toy_divisor)
               = if has (fun c => c != 0) (values toy_divisor)
                 then Some (trimmed toy_dividend) else None.
Proof. by apply: (@mul_truediv_cancel 5 toy_dividend toy_divisor). Defined.

Lemma scalar_operand_constant_witness :
  [/\ __add__ toy_dividend (OfScalar 2%:R)
      = __add__ toy_dividend (OfPolynomial (InterpolationPoly.const_poly 2%:R)),
      __sub__ toy_dividend (OfScalar 2%:R)
      = __sub__ toy_dividend (OfPolynomial (InterpolationPoly.const_poly 2%:R)),
      __mul__ toy_dividend (OfScalar 2%:R)
      = __mul__ toy_dividend (OfPolynomial (InterpolationPoly.const_poly 2%:R))
    & __truediv__ toy_dividend (OfScalar 2%:R)
      = __truediv__ toy_dividend
          (OfPolynomial (InterpolationPoly.const_poly 2%:R))].
Proof. by apply: (@scalar_operand_constant 5 toy_dividend 2%:R). Defined.

Lemma operators_reject_mismatch_witness :
  [/\ __add__ toy_coeffs (OfPolynomial toy_evals) = None,
      __sub__ toy_coeffs (OfPolynomial toy_evals) = None,
      __mul__ toy_coeffs (OfPolynomial toy_evals) = None
    & __truediv__ toy_coeffs (OfPolynomial toy_evals) = None].
Proof. by apply: (@operators_reject_mismatch 5 toy_coeffs toy_evals). Defined.

Lemma monomial_rejects_empty_witness :
  [/\ __add__ toy_coeffs (OfPolynomial (mkPolynomial [::] MONOMIAL)) = None,
      __sub__ toy_coeffs (OfPolynomial (mkPolynomial [::] MONOMIAL)) = None,
      __mul__ toy_coeffs (OfPolynomial (mkPolynomial [::] MONOMIAL)) = None
    & __truediv__ toy_coeffs (OfPolynomial (mkPolynomial [::] MONOMIAL)) = None].
Proof.
by apply: (@monomial_rejects_empty 5 toy_coeffs (mkPolynomial [::] MONOMIAL)).
Defined.

Lemma monomial_results_normal_witness :
  basis (of_poly (poly_of toy_dividend + poly_of toy_divisor)) = MONOMIAL
  /\ normal (values (of_poly (poly_of toy_dividend + poly_of toy_divisor))).
Proof.
apply: (@monomial_results_normal 5 toy_dividend toy_divisor) => //.
by constructor 1; apply: add_monomial.
Defined.

(** *** LAGRANGE operands: entry by entry *)

Section LagrangeOperators.
Variable p : nat.
Local Notation Scalar := 'F_p.
Implicit Types (A B S M : Polynomial p) (a b : seq Scalar).

Lemma zip_addK a b :
  size a = size b ->
  [seq xy.1 - xy.2 | xy <- zip [seq xy.1 + xy.2 | xy <- zip a b] b] = a.
Proof. by elim: a b => [|x a IHa] [|y b] //= [sz_ab]; rewrite addrK IHa. Qed.

Lemma zip_mulK a b :
  size a = size b -> all (fun y => y != 0) b ->
  [seq xy.1 / xy.2 | xy <- zip [seq xy.1 * xy.2 | xy <- zip a b] b] = a.
Proof.
elim: a b => [|x a IHa] [|y b] //= [sz_ab] /andP[y_neq0 b_neq0].
by rewrite mulfK // IHa.
Qed.

Lemma size_zip_map (f : Scalar * Scalar -> Scalar) a b :
  size a = size b -> size [seq f xy | xy <- zip a b] = size b.
Proof. by move=> sz_ab; rewrite size_map size_zip sz_ab minnn. Qed.

Lemma div_pairsE a b :
  size a = size b ->
  div_pairs (zip a b)
  = if all (fun y => y != 0) b then Some [seq xy.1 / xy.2 | xy <- zip a b]
    else None.
Proof.
elim: a b => [|x a IHa] [|y b] //= [sz_ab]; rewrite /sdiv.
by case: eqP => //= _; rewrite IHa //; case: ifP.
Qed.

(** X10.  On LAGRANGE polynomials of one length, subtraction undoes
    addition exactly: [(A + B) - B] is [A]. *)
Theorem lagrange_add_sub_cancel A B :
  basis A = LAGRANGE -> basis B = LAGRANGE ->
  size (values A) = size (values B) ->
  exists S, [/\ __add__ A (OfPolynomial B) = Some S,
                size (values S) = size (values A)
              & __sub__ S (OfPolynomial B) = Some A].
Proof.
case: A B => [a ba] [b bb] /= -> -> sz_ab.
rewrite /__add__ /__sub__ /= sz_ab !eqxx; eexists; split; first by [].
  by rewrite /= size_zip_map.
by rewrite /= size_zip_map // eqxx zip_addK.
Qed.

(** X11.  On LAGRANGE polynomials of one length, division returns exactly
    when no entry of the divisor is zero, and then it undoes
    multiplication: [(A * B) / B] is [A]. *)
Theorem lagrange_mul_truediv_cancel A B :
  basis A = LAGRANGE -> basis B = LAGRANGE ->
  size (values A) = size (values B) ->
  isSome (__truediv__ A (OfPolynomial B)) = all (fun y => y != 0) (values B)
  /\ exists M, [/\ __mul__ A (OfPolynomial B) = Some M,
                   size (values M) = size (values A)
                 & all (fun y => y != 0) (values B) ->
                   __truediv__ M (OfPolynomial B) = Some A].
Proof.
case: A B => [a ba] [b bb] /= -> -> sz_ab.
rewrite /__mul__ /__truediv__ /= sz_ab !eqxx div_pairsE //; split.
  by case: ifP.
eexists; split; first by [].
  by rewrite /= size_zip_map.
move=> b_neq0.
by rewrite /= size_zip_map // eqxx div_pairsE ?size_zip_map // b_neq0 zip_mulK.
Qed.

End LagrangeOperators.

Lemma lagrange_add_sub_cancel_witness :
  exists S, [/\ __add__ toy_evals (OfPolynomial toy_evals) = Some S,
                size (values S) = size (values toy_evals)
              & __sub__ S (OfPolynomial toy_evals) = Some toy_evals].
Proof. by apply: (@lagrange_add_sub_cancel 5 toy_evals toy_evals). Defined.

Lemma lagrange_mul_truediv_cancel_witness :
  isSome (__truediv__ toy_evals (OfPolynomial toy_evals))
  = all (fun y => y != 0) (values toy_evals)
  /\ exists M, [/\ __mul__ toy_evals (OfPolynomial toy_evals) = Some M,
                   size (values M) = size (values toy_evals)
                 & all (fun y => y != 0) (values toy_evals) ->
                   __truediv__ M (OfPolynomial toy_evals) = Some toy_evals].
Proof. by apply: (@lagrange_mul_truediv_cancel 5 toy_evals toy_evals). Defined.

(** *** [shift]: rotations compose *)

Section ShiftLaws.
Variable p : nat.
Implicit Types (P Q : Polynomial p).

Lemma shift_rot P (k : int) :
  shift P k
  = if (basis P == LAGRANGE) && (k < Posz (size (values P)))
    then Some (mkPolynomial (rot (Py.bound (size (values P)) k) (values P))
                            LAGRANGE)
    else None.
Proof. by case: P => vs [] //=; rewrite /shift /=; case: ifP. Qed.

(** X12.  Whatever [shift] returns, for any integer argument, is a LAGRANGE
    polynomial holding the same values, each as often as before. *)
Theorem shift_permutes P (k : int) Q :
  shift P k = Some Q ->
  [/\ basis Q = LAGRANGE, size (values Q) = size (values P)
    & perm_eq (values Q) (values P)].
Proof.
rewrite shift_rot; case: ifP => // _ [<-] /=.
by rewrite size_rot perm_rot.
Qed.

(** X13.  Shifting by 0 changes nothing, and shifting by [j] and then by
    [k], both below the length [n], is shifting by [(j + k) mod n]. *)
Theorem shift_compose P (j k : nat) :
  let n := size (values P) in
  basis P = LAGRANGE -> (j < n)%N -> (k < n)%N ->
  shift P 0 = Some P
  /\ exists Q, shift P (Posz j) = Some Q
               /\ shift Q (Posz k) = shift P (Posz ((j + k) %% n)).
Proof.
case: P => vs b /= -> lt_j lt_k; rewrite !shift_rot /= ?eqxx /=.
have n_gt0 : (0 < size vs)%N by apply: leq_ltn_trans lt_j.
rewrite !ltz_nat n_gt0 lt_j ltn_pmod // min0n rot0; split; first by [].
eexists; split; first by [].
rewrite shift_rot /= size_rot ltz_nat lt_k ?eqxx /=.
rewrite (minn_idPl (ltnW lt_k)) (minn_idPl (ltnW lt_j)).
rewrite (minn_idPl (ltnW (ltn_pmod _ n_gt0))).
rewrite addnC rot_add_mod; try exact: ltnW.
case: (leqP (k + j) (size vs)) => [|lt_n].
  rewrite leq_eqVlt => /predU1P[->|lt_kj]; last by rewrite modn_small.
  by rewrite modnn rot_size rot0.
rewrite -[in RHS](subnK (ltnW lt_n)) modnDr modn_small //.
by slia.
Qed.

(** X14.  A shift by [-k] undoes a shift by [k], for [0 <= k] below the
    length. *)
Theorem shift_inverse P (k : nat) :
  basis P = LAGRANGE -> (k < size (values P))%N ->
  exists Q, shift P (Posz k) = Some Q /\ shift Q (- Posz k) = Some P.
Proof.
case: P => vs b /= -> lt_k; rewrite shift_rot /= ?eqxx ltz_nat lt_k /=.
eexists; split; first by [].
rewrite shift_rot /= size_rot ?eqxx /=.
have -> : - Posz k < Posz (size vs).
  by rewrite (@le_lt_trans _ _ 0) ?oppr_le0 // ltz_nat (leq_ltn_trans _ lt_k).
rewrite (minn_idPl (ltnW lt_k)).
have -> : Py.bound (size vs) (- Posz k) = if k is 0 then 0%N else (size vs - k)%N.
  by case: (k) => [|k'] //=; rewrite min0n.
case: k lt_k => [|k] lt_k; first by rewrite !rot0.
rewrite rot_add_mod; [exact: ltnW|exact: leq_subr|].
rewrite subnK; first exact: ltnW.
by rewrite leqnn rot_size.
Qed.

End ShiftLaws.

Lemma shift_permutes_witness :
  [/\ basis (mkPolynomial [:: 4%:R; 3%:R; 2%:R; 0] LAGRANGE : Polynomial 5)
      = LAGRANGE,
      size (values (mkPolynomial [:: 4%:R; 3%:R; 2%:R; 0] LAGRANGE
                      : Polynomial 5))
      = size (values toy_evals)
    & perm_eq (values (mkPolynomial [:: 4%:R; 3%:R; 2%:R; 0] LAGRANGE
                         : Polynomial 5))
              (values toy_evals)].
Proof. exact: (@shift_permutes 5 toy_evals 1 _ (erefl _)). Defined.

Lemma shift_compose_witness :
  shift toy_evals 0 = Some toy_evals
  /\ exists Q, shift toy_evals (Posz 3) = Some Q
               /\ shift Q (Posz 2) = shift toy_evals (Posz ((3 + 2) %% 4)).
Proof. by apply: (@shift_compose 5 toy_evals 3 2). Defined.

Lemma shift_inverse_witness :
  exists Q, shift toy_evals (Posz 3) = Some Q
            /\ shift Q (- Posz 3) = Some toy_evals.
Proof. by apply: (@shift_inverse 5 toy_evals 3). Defined.

(** ** Further properties of the transforms *)

Section TransformEdges.
Variable p : nat.
Local Notation Scalar := 'F_p.
Variable roots_of_unity : nat -> seq Scalar.
Implicit Types (P Q : Polynomial p) (vals roots : seq int).

Lemma half_split (m : nat) :
  exists h b, [/\ m = (b + (h + h))%N, (b <= 1)%N, m./2 = h
                & uphalf m = (b + h)%N].
Proof.
exists m./2, (odd m : nat); split=> //.
- by rewrite addnn odd_double_half.
- by case: (odd m).
- by rewrite uphalf_half.
Qed.

Lemma _fftS (fuel : nat) vals (modulus : int) roots :
  _fft fuel.+1 vals modulus roots
  = if size vals == 1%N then Some vals
    else
      if _fft fuel (Py.evens vals) modulus (Py.evens roots) is Some L then
        if _fft fuel (Py.odds vals) modulus (Py.evens roots) is Some R then
          butterfly modulus roots (size L) 0 (zip L R) (nseq (size vals) 0)
        else None
      else None.
Proof. by []. Qed.

(** The recursion ends on every non-empty list, within a depth of its
    length, when there are as many roots as values. *)
Lemma _fft_total (fuel : nat) vals (modulus : int) roots :
  (0 < size vals)%N -> (size vals <= fuel)%N -> (size vals <= size roots)%N ->
  exists res, _fft fuel vals modulus roots = Some res
              /\ size res = size vals.
Proof.
elim: fuel vals roots => [|fuel IHfuel] vals roots gt0 le_fuel le_roots.
  by move: gt0 le_fuel; case: (size vals).
rewrite _fftS; have [_|sz_neq1] := eqVneq (size vals) 1%N; first by exists vals.
have [h [b [sz_eq le_b half_eq uphalf_eq]]] := half_split (size vals).
have h_gt0 : (0 < h)%N by move: sz_neq1 gt0; rewrite sz_eq; case: (h) (b) le_b => [|?] [|[|?]].
have [hr [br [szr_eq le_br halfr_eq uphalfr_eq]]] := half_split (size roots).
have [|||L [-> sz_L]] := IHfuel (Py.evens vals) (Py.evens roots).
- by rewrite size_evens uphalf_eq; slia.
- by rewrite size_evens uphalf_eq; slia.
- by rewrite !size_evens uphalf_eq uphalfr_eq; slia.
have [|||R [-> sz_R]] := IHfuel (Py.odds vals) (Py.evens roots).
- by rewrite size_odds half_eq.
- by rewrite size_odds half_eq; slia.
- by rewrite size_odds size_evens half_eq uphalfr_eq; slia.
rewrite size_evens uphalf_eq in sz_L; rewrite size_odds half_eq in sz_R.
have sz_LR : size (zip L R) = h.
  by rewrite size_zip sz_L sz_R; apply/minn_idPr; rewrite leq_addl.
have [|||o' [-> sz_o' _ _ _]] :=
  @butterflyP modulus roots (size L) (zip L R) 0 (nseq (size vals) 0).
- by rewrite sz_LR sz_L; slia.
- by rewrite sz_LR sz_L size_nseq; slia.
- by rewrite sz_LR; slia.
by exists o'; split=> //; rewrite sz_o' size_nseq.
Qed.

(** X15.  [fft] checks the basis against the direction and cannot
    transform an empty polynomial: the inner recursion never reaches its
    base case on an empty list, whatever depth it is given. *)
Theorem fft_rejects P :
  [/\ basis P = LAGRANGE -> fft roots_of_unity P false = None,
      basis P = MONOMIAL -> ifft roots_of_unity P = None,
      values P = [::] -> forall inv, fft roots_of_unity P inv = None
    & forall fuel modulus roots, _fft fuel [::] modulus roots = None].
Proof.
case: P => vs b; split=> /= [->|->|->|]; rewrite ?/ifft /fft //=; last first.
  exact: _fft_empty.
by case; case: b => //=; rewrite /sdiv eqxx.
Qed.

(** X16.  [fft] does not ask for a power-of-two length: on every MONOMIAL
    polynomial with at least one coefficient, given at least as many roots
    as coefficients, it returns a LAGRANGE polynomial of the same length. *)
Theorem fft_any_length P :
  basis P = MONOMIAL -> values P != [::] ->
  (size (values P) <= size (roots_of_unity (size (values P))))%N ->
  exists Q, [/\ fft roots_of_unity P false = Some Q, basis Q = LAGRANGE
              & size (values Q) = size (values P)].
Proof.
case: P => vs b /= -> vs_neq0 le_roots; rewrite /fft /=.
have [|||res [-> sz_res]] :=
  @_fft_total (size [seq n_of x | x <- vs]) [seq n_of x | x <- vs]
    (field_modulus p) [seq n_of x | x <- roots_of_unity (size vs)].
- by rewrite size_map lt0n size_eq0.
- by [].
- by rewrite !size_map.
by eexists; split; rewrite //= size_map sz_res size_map.
Qed.

End TransformEdges.

Section TransformLaws.
Variable p : nat.
Hypothesis p_prime : prime p.
Local Notation Scalar := 'F_p.
Variable roots_of_unity : nat -> seq Scalar.
Variable k : nat.
Hypothesis domain_contract : roots_contract (2 ^ k) (roots_of_unity (2 ^ k)).
Implicit Types (P Q : Polynomial p).

Let n := (2 ^ k)%N.
Let w : Scalar := nth 1 (roots_of_unity n) 1.

Let n_gt0 : (0 < n)%N.
Proof. by rewrite /n expn_gt0. Qed.

Lemma monomial_size P : basis P = MONOMIAL -> size (values P) = n -> monomial P.
Proof. by move=> bP sz_P; rewrite /monomial bP eqxx -size_eq0 sz_P -lt0n. Qed.

(** The coefficients the inverse transform returns evaluate, at the
    domain roots, to the values it was given. *)
Lemma horner_inverse_transform (vs : seq Scalar) (j : nat) :
  size vs = n -> (j < n)%N ->
  (Poly [seq (Poly vs).[w^-1 ^+ i] * (1 / n%:R) | i <- iota 0 n]).[w ^+ j]
  = vs`_j.
Proof.
move=> sz_vs lt_j.
rewrite (@horner_Poly_sum _ _ _ n) ?size_map ?size_iota //.
rewrite (eq_bigr (fun i : 'I_n =>
           \sum_(m < n) vs`_m / n%:R * (w ^+ j * w^-1 ^+ m) ^+ i)).
  move=> i _; rewrite (nth_map 0%N) ?size_iota // nth_iota // add0n.
  rewrite (@horner_Poly_sum _ _ _ n) // !big_distrl /=.
  apply: eq_bigr => m _; rewrite exprMn [w^-1 ^+ m ^+ i]exprAC.
  by rewrite mul1r; ring.
rewrite exchange_big /=.
rewrite (eq_bigr (fun m : 'I_n =>
           vs`_m / n%:R * (if j == m then n%:R else 0))).
  by move=> m _; rewrite -mulr_sumr (geometric_orthogonal domain_contract).
rewrite (bigD1 (Ordinal lt_j)) //= eqxx big1 => [m m_neq_j|].
  rewrite -val_eqE /= eq_sym in m_neq_j.
  by rewrite (negbTE m_neq_j) mulr0.
by rewrite addr0 divfK // (contract_natr_neq0 domain_contract n_gt0).
Qed.

(** X17.  [fft] returns the evaluations on the domain: entry [i] of its
    result is what [coeff_eval] returns at the [i]-th root of unity. *)
Theorem fft_evaluates P :
  basis P = MONOMIAL -> size (values P) = (2 ^ k)%N ->
  exists Q, [/\ fft roots_of_unity P false = Some Q, basis Q = LAGRANGE,
                size (values Q) = (2 ^ k)%N
              & forall i, (i < 2 ^ k)%N ->
                  coeff_eval P (roots_of_unity (2 ^ k))`_i
                  = Some (values Q)`_i].
Proof.
move=> basisP sz_P; rewrite (fftE p_prime domain_contract) //.
eexists; split; [by [] | by [] | by rewrite /= size_map size_iota |].
move=> i lt_i; rewrite coeff_evalE ?monomial_size //=.
rewrite (nth_map 0%N) ?size_iota // nth_iota // add0n.
by rewrite (contract_nth domain_contract).
Qed.

(** X18.  [ifft] interpolates on the domain: it returns [2^k]
    coefficients of a MONOMIAL polynomial whose value at the [i]-th root of
    unity is entry [i] of the LAGRANGE polynomial it was given. *)
Theorem ifft_interpolates Q :
  basis Q = LAGRANGE -> size (values Q) = (2 ^ k)%N ->
  exists P, [/\ ifft roots_of_unity Q = Some P, basis P = MONOMIAL,
                size (values P) = (2 ^ k)%N
              & forall i, (i < 2 ^ k)%N ->
                  coeff_eval P (roots_of_unity (2 ^ k))`_i
                  = Some (values Q)`_i].
Proof.
move=> basisQ sz_Q; rewrite (ifftE p_prime domain_contract) //.
eexists; split; [by [] | by [] | by rewrite /= size_map size_iota |].
move=> i lt_i; rewrite coeff_evalE ?monomial_size ?size_map ?size_iota //.
rewrite (contract_nth domain_contract) // /poly_of /=.
by rewrite horner_inverse_transform.
Qed.

(** X19.  The round trip in the other direction: [fft] of what [ifft]
    returns for a LAGRANGE polynomial of power-of-two length is that
    polynomial. *)
Theorem ifft_fft_roundtrip Q :
  basis Q = LAGRANGE -> size (values Q) = (2 ^ k)%N ->
  exists P, ifft roots_of_unity Q = Some P
            /\ fft roots_of_unity P false = Some Q.
Proof.
move=> basisQ sz_Q; rewrite (ifftE p_prime domain_contract) //.
eexists; split; first by [].
rewrite (fftE p_prime domain_contract) ?size_map ?size_iota //=.
case: Q basisQ sz_Q => vs b /= -> sz_vs; congr (Some (mkPolynomial _ _)).
apply: (@eq_from_nth _ 0); first by rewrite size_map size_iota sz_vs.
move=> j; rewrite size_map size_iota => lt_j.
rewrite (nth_map 0%N) ?size_iota // nth_iota // add0n /poly_of /=.
by rewrite horner_inverse_transform.
Qed.

End TransformLaws.

(** *** The transforms at the toy field *)

Lemma fft_any_length_witness :
  exists Q, [/\ fft toy_roots toy_dividend false = Some Q, basis Q = LAGRANGE
              & size (values Q) = size (values toy_dividend)].
Proof. by apply: (@fft_any_length 5 toy_roots toy_dividend). Defined.

Lemma fft_evaluates_witness :
  exists Q, [/\ fft toy_roots toy_coeffs false = Some Q, basis Q = LAGRANGE,
                size (values Q) = (2 ^ 2)%N
              & forall i, (i < 2 ^ 2)%N ->
                  coeff_eval toy_coeffs (toy_roots (2 ^ 2))`_i
                  = Some (values Q)`_i].
Proof.
exact: (@fft_evaluates 5 toy_prime toy_roots 2 toy_contract toy_coeffs
          (erefl _) (erefl _)).
Defined.

Lemma ifft_interpolates_witness :
  exists P, [/\ ifft toy_roots toy_evals = Some P, basis P = MONOMIAL,
                size (values P) = (2 ^ 2)%N
              & forall i, (i < 2 ^ 2)%N ->
                  coeff_eval P (toy_roots (2 ^ 2))`_i
                  = Some (values toy_evals)`_i].
Proof.
exact: (@ifft_interpolates 5 toy_prime toy_roots 2 toy_contract toy_evals
          (erefl _) (erefl _)).
Defined.

Lemma ifft_fft_roundtrip_witness :
  exists P, ifft toy_roots toy_evals = Some P
            /\ fft toy_roots P false = Some toy_evals.
Proof.
exact: (@ifft_fft_roundtrip 5 toy_prime toy_roots 2 toy_contract toy_evals
          (erefl _) (erefl _)).
Defined.

(** ** Further properties of barycentric evaluation *)

Section BigRotation.
Variable R : nzRingType.

(** A sum over a cycle of indices is a sum over the indices. *)
Lemma sum_rotation (n j : nat) (g : nat -> R) :
  (j <= n)%N ->
  \sum_(i < n) g ((i + j) %% n)%N = \sum_(i < n) g i.
Proof.
move=> le_j; rewrite -(big_mkord xpredT g).
rewrite -(big_mkord xpredT (fun i => g ((i + j) %% n)%N)) /index_iota subn0.
have -> : \sum_(i <- iota 0 n) g ((i + j) %% n)%N
          = \sum_(m <- [seq ((i + j) %% n)%N | i <- iota 0 n]) g m.
  by rewrite big_map.
have -> : [seq ((i + j) %% n)%N | i <- iota 0 n] = rot j (iota 0 n).
  apply: (@eq_from_nth _ 0%N); first by rewrite size_map size_rot.
  move=> i; rewrite size_map size_iota => lt_i.
  rewrite (nth_map 0%N) ?size_iota // nth_iota // add0n /rot.
  rewrite nth_rotation ?size_iota // nth_iota ?add0n //.
  by rewrite ltn_pmod // (leq_ltn_trans _ lt_i).
by apply: perm_big; rewrite perm_rot.
Qed.

End BigRotation.

Section BarycentricLaws.
Variable p : nat.
Hypothesis p_prime : prime p.
Local Notation Scalar := 'F_p.
Variable roots_of_unity : nat -> seq Scalar.
Variable k : nat.
Hypothesis domain_contract : roots_contract (2 ^ k) (roots_of_unity (2 ^ k)).
Implicit Types (P Q A B : Polynomial p) (x c : Scalar).

Let n := (2 ^ k)%N.
Let rs := roots_of_unity n.
Let w : Scalar := nth 1 rs 1.

Let n_gt0 : (0 < n)%N.
Proof. by rewrite /n expn_gt0. Qed.

Let sz_rs : size rs = n.
Proof. exact: contract_size domain_contract. Qed.

Let nth_rs (i : nat) : (i < n)%N -> rs`_i = w ^+ i.
Proof. exact: (contract_nth domain_contract). Qed.

Let w_neq0 : w != 0.
Proof. exact: contract_unit domain_contract n_gt0. Qed.

Let wn : w ^+ n = 1.
Proof. exact: contract_expr domain_contract. Qed.

Lemma barycentric_eval_root P (i : nat) :
  basis P = LAGRANGE -> size (values P) = n -> (i < n)%N ->
  barycentric_eval roots_of_unity P rs`_i = Some (values P)`_i.
Proof.
case: P => vs b /= -> sz_vs lt_i; rewrite /barycentric_eval /= sz_vs -/rs.
rewrite root_indexE // mem_nth ?sz_rs // index_uniq ?sz_rs //.
  exact: contract_uniq domain_contract.
by rewrite (get_nth 0) ?sz_vs.
Qed.

Lemma root_mem x : x \in rs -> exists2 i, (i < n)%N & x = rs`_i.
Proof.
by move=> x_in; exists (index x rs); rewrite -?sz_rs ?index_mem ?nth_index.
Qed.

(** X20.  Barycentric evaluation is linear in the polynomial, at every
    point: the entry-wise sum of two LAGRANGE polynomials evaluates to the
    sum of their values, and the product with a scalar to the product. *)
Theorem barycentric_eval_linear A B c x :
  basis A = LAGRANGE -> basis B = LAGRANGE ->
  size (values A) = (2 ^ k)%N -> size (values B) = (2 ^ k)%N ->
  exists S T a b,
    [/\ __add__ A (OfPolynomial B) = Some S, __mul__ A (OfScalar c) = Some T,
        barycentric_eval roots_of_unity A x = Some a,
        barycentric_eval roots_of_unity B x = Some b
      & barycentric_eval roots_of_unity S x = Some (a + b)
        /\ barycentric_eval roots_of_unity T x = Some (a * c)].
Proof.
move=> basisA basisB sz_A sz_B.
pose S := mkPolynomial (p := p)
            [seq xy.1 + xy.2 | xy <- zip (values A) (values B)] LAGRANGE.
pose T := mkPolynomial (p := p) [seq y * c | y <- values A] LAGRANGE.
have sz_zip : size (zip (values A) (values B)) = n.
  by rewrite size_zip sz_A sz_B minnn.
have sz_S : size (values S) = n by rewrite /= size_map.
have sz_T : size (values T) = n by rewrite /= size_map.
have nth_S i : (i < n)%N -> (values S)`_i = (values A)`_i + (values B)`_i.
  by move=> lt_i; rewrite (nth_map (0, 0)) ?sz_zip // nth_zip ?sz_A ?sz_B.
have nth_T i : (i < n)%N -> (values T)`_i = (values A)`_i * c.
  by move=> lt_i; rewrite (nth_map 0) ?sz_A.
exists S, T.
have -> : __add__ A (OfPolynomial B) = Some S.
  by rewrite /__add__ basisA basisB /= sz_A sz_B eqxx.
have -> : __mul__ A (OfScalar c) = Some T by rewrite /__mul__ basisA.
case x_in : (x \in rs).
  have [i lt_i ->] := root_mem x_in.
  exists (values A)`_i, (values B)`_i.
  by rewrite !barycentric_eval_root // nth_S // nth_T.
rewrite !(barycentric_evalE p_prime domain_contract) ?x_in //.
eexists; eexists; split; [by [] | by [] | by [] | by [] |].
split; congr Some.
  rewrite -mulrDr -big_split /=; congr (_ * _); apply: eq_bigr => i _.
  by rewrite nth_S //; ring.
rewrite -[RHS]mulrA mulr_suml; congr (_ * _); apply: eq_bigr => i _.
by rewrite nth_T //; ring.
Qed.

Lemma scaled_notin (j : nat) x : (j < n)%N -> x \notin rs -> w ^+ j * x \notin rs.
Proof.
move=> lt_j; apply: contraNN => /root_mem[m lt_m wx_eq].
have -> : x = w ^+ ((n - j + m) %% n).
  rewrite expr_mod // exprD (contract_exprV domain_contract) 1?ltnW //.
  by rewrite -nth_rs // -wx_eq mulrA exprVn mulVf ?mul1r // expf_neq0.
by rewrite -nth_rs ?mem_nth ?sz_rs ?ltn_pmod.
Qed.

(** X21.  A shift by [j] is a change of variable: the shifted polynomial
    evaluates at [x] to what the polynomial evaluates to at [x] times the
    [j]-th root of unity. *)
Theorem shift_scales_argument P (j : nat) x :
  basis P = LAGRANGE -> size (values P) = (2 ^ k)%N -> (j < 2 ^ k)%N ->
  exists Q, shift P (Posz j) = Some Q
            /\ barycentric_eval roots_of_unity Q x
               = barycentric_eval roots_of_unity P
                   ((roots_of_unity (2 ^ k))`_j * x).
Proof.
move=> basisP sz_P lt_j; rewrite shift_rot basisP sz_P ltz_nat lt_j /=.
rewrite (minn_idPl (ltnW lt_j)); eexists; split; first by [].
set Q := mkPolynomial _ _.
have sz_Q : size (values Q) = n by rewrite /= size_rot.
have nth_Q i : (i < n)%N -> (values Q)`_i = (values P)`_((i + j) %% n).
  by move=> lt_i; rewrite /= /rot nth_rotation sz_P // ltnW.
rewrite -/n -/rs nth_rs //.
case x_in : (x \in rs).
  have [i lt_i ->] := root_mem x_in.
  rewrite barycentric_eval_root // nth_Q // nth_rs // -exprD addnC.
  rewrite -(expr_mod _ wn) -nth_rs ?ltn_pmod //.
  by rewrite barycentric_eval_root ?ltn_pmod.
have wx_notin := scaled_notin lt_j (negbT x_in).
rewrite !(barycentric_evalE p_prime domain_contract) ?x_in //.
congr (Some (_ * _)).
  by rewrite exprMn exprAC wn expr1n mul1r.
rewrite -/n -/rs -/w.
rewrite -[RHS](@sum_rotation _ n j
                 (fun m => (values P)`_m * w ^+ m / (w ^+ j * x - w ^+ m)));
  first exact: (ltnW lt_j).
apply: eq_bigr => i _; rewrite nth_Q // (expr_mod _ wn) exprD.
have wj_neq0 : w ^+ j != 0 by rewrite expf_neq0.
have -> : w ^+ j * x - w ^+ i * w ^+ j = w ^+ j * (x - w ^+ i) by ring.
by rewrite invfM -[LHS]mulr1 -(divff wj_neq0); ring.
Qed.

End BarycentricLaws.

(** *** Barycentric evaluation at the toy field *)

Lemma barycentric_eval_linear_witness :
  exists S T a b,
    [/\ __add__ toy_evals (OfPolynomial toy_evals) = Some S,
        __mul__ toy_evals (OfScalar 3%:R) = Some T,
        barycentric_eval toy_roots toy_evals 0 = Some a,
        barycentric_eval toy_roots toy_evals 0 = Some b
      & barycentric_eval toy_roots S 0 = Some (a + b)
        /\ barycentric_eval toy_roots T 0 = Some (a * 3%:R)].
Proof.
exact: (@barycentric_eval_linear 5 toy_prime toy_roots 2 toy_contract
          toy_evals toy_evals 3%:R 0 (erefl _) (erefl _) (erefl _) (erefl _)).
Defined.

Lemma shift_scales_argument_witness :
  exists Q, shift toy_evals (Posz 1) = Some Q
            /\ barycentric_eval toy_roots Q 0
               = barycentric_eval toy_roots toy_evals
                   ((toy_roots (2 ^ 2))`_1 * 0).
Proof.
exact: (@shift_scales_argument 5 toy_prime toy_roots 2 toy_contract
          toy_evals 1 0 (erefl _) (erefl _) isT).
Defined.

(** ** Further properties of [InterpolationPoly] *)

Section LoopFailure.
Variable S : Type.

Lemma foldl_none (body : S -> nat -> option S) (s : seq nat) :
  foldl (fun acc i => if acc is Some a then body a i else None) None s = None.
Proof. by elim: s. Qed.

(** A loop whose body raises at one index raises. *)
Lemma for_range_fail (n : nat) (body : S -> nat -> option S) (st : S)
    (i : nat) :
  (i < n)%N -> (forall a, body a i = None) -> Py.for_range n body st = None.
Proof.
move=> lt_i fail; rewrite /Py.for_range.
have -> : iota 0 n = iota 0 i ++ i :: iota i.+1 (n - i.+1).
  by rewrite -[n in LHS](subnKC (ltnW lt_i)) iotaD add0n -(subnSK lt_i).
rewrite foldl_cat /=; case: (foldl _ _ (iota 0 i)) => [a|]; rewrite ?fail;
  exact: foldl_none.
Qed.

End LoopFailure.

Section InterpolationLaws.
Variable p : nat.
Local Notation Scalar := 'F_p.
Implicit Types (X Y : seq Scalar) (ip : InterpolationPoly.t p) (x z : Scalar).
Implicit Types (F : Polynomial p).

Lemma repeated_node X : ~~ uniq X -> exists2 x, x \in X & x \in rem x X.
Proof.
elim: X => [|y X IHX] //=; rewrite negb_and negbK.
case: (boolP (y \in X)) => [y_in _|y_notin /= /IHX[x x_in x_rem]].
  by exists y; rewrite ?mem_head // eqxx.
exists x; first by rewrite inE x_in orbT.
have /negbTE -> : y != x by apply: contraNneq y_notin => ->.
by rewrite inE x_rem orbT.
Qed.

Lemma horner_quotient_rem X x z :
  x \in X -> (quotient X x).[z] = \prod_(y <- rem x X) (z - y).
Proof.
move=> x_in; rewrite quotient_rem // horner_prod.
by apply: eq_bigr => y _; rewrite hornerXsubC.
Qed.

Lemma lagrange_poly_repeated X Y (i : nat) :
  (i < size X)%N -> X`_i \in rem X`_i X ->
  InterpolationPoly.lagrange_poly (InterpolationPoly.Build (size X) X Y) (Posz i)
  = None.
Proof.
move=> lt_i dup; have x_in : X`_i \in X by rewrite mem_nth.
rewrite /InterpolationPoly.lagrange_poly vanishing_polyE vanishing_poly_diffE.
rewrite /Py.index /= (get_nth 0) // coeff_evalE ?monomial_of_poly //.
rewrite poly_of_of_poly -deriv_vanishing horner_deriv_vanishing //.
rewrite truediv_root ?root_vanishing // truediv_scalar ?monomial_of_poly //.
have -> : (quotient X X`_i).[X`_i] = 0.
  rewrite horner_quotient_rem //; apply/eqP; rewrite prodf_seq_eq0.
  by apply/hasP; exists X`_i; rewrite //= subrr.
by rewrite eqxx.
Qed.

(** A polynomial with no more coefficients than there are nodes is the
    interpolant of its values at the nodes. *)
Lemma interpolant_unique X Y (P : {poly Scalar}) :
  uniq X -> (size P <= size X)%N ->
  (forall i, (i < size X)%N -> P.[X`_i] = Y`_i) ->
  interpolant X Y = P.
Proof.
move=> uniq_X sz_P ev_P.
apply/eqP; rewrite -subr_eq0; apply: contraT => D_neq0.
have roots_D : all (root (interpolant X Y - P)) X.
  apply/allP => x /(nthP 0)[i lt_i <-].
  by rewrite rootE hornerD hornerN horner_interpolant // ev_P // subrr.
have := max_poly_roots D_neq0 roots_D uniq_X; rewrite ltnNge => /negP[].
apply: leq_trans (size_polyD _ _) _; rewrite geq_max size_interpolant /=.
by rewrite size_polyN.
Qed.

Lemma index_wrap (s : seq Scalar) (i : int) :
  [/\ Posz (size s) <= i -> Py.index s i = None,
      i < - Posz (size s) -> Py.index s i = None
    & - Posz (size s) <= i -> i < 0 ->
      Py.index s i = Py.index s (i + Posz (size s))].
Proof.
case: i => m; split=> //=.
- by rewrite lez_nat /Py.get => le_m; rewrite drop_oversize.
- by rewrite ltNge (@le_trans _ _ 0) // oppr_le0.
- by rewrite NegzE ltrN2 ltz_nat ltnS leqNgt => /negbTE ->.
- rewrite NegzE lerN2 lez_nat => lt_m _; rewrite lt_m.
  by rewrite addrC subzn.
Qed.

(** X22.  [vanishing_poly] returns a monic MONOMIAL polynomial with
    [n + 1] coefficients whose value at [x] is the product of the
    differences [x - X[i]]: it vanishes exactly at the nodes. *)
Theorem vanishing_poly_roots X Y ip :
  InterpolationPoly.__init__ X Y = Some ip ->
  exists V,
    [/\ InterpolationPoly.vanishing_poly ip = Some V, basis V = MONOMIAL,
        size (values V) = (size X).+1 /\ last 0 (values V) = 1,
        forall x, coeff_eval V x = Some (\prod_(y <- X) (x - y))
      & forall x, (coeff_eval V x == Some 0) = (x \in X)].
Proof.
case/init_some=> -> _; rewrite vanishing_polyE.
have monic_V : vanishing X \is monic by apply: monic_prod_XsubC.
have sz_V : size (vanishing X) = (size X).+1 by apply: size_prod_XsubC.
have ev_V x : coeff_eval (of_poly (vanishing X)) x = Some (vanishing X).[x].
  by rewrite coeff_evalE ?monomial_of_poly // poly_of_of_poly.
exists (of_poly (vanishing X)); split=> // [|x|x].
- rewrite /= /np_repr (negbTE (monic_neq0 monic_V)); split=> //.
  by rewrite -nth_last -lead_coefE (monicP monic_V).
- rewrite ev_V horner_prod; congr Some.
  by apply: eq_bigr => y _; rewrite hornerXsubC.
- by rewrite ev_V -root_vanishing rootE.
Qed.

(** X23.  At a node [X[i]] the polynomial [vanishing_poly_diff] returns
    takes the value of the product of the differences between [X[i]] and
    the other nodes. *)
Theorem vanishing_poly_diff_at_node X Y ip (i : nat) :
  InterpolationPoly.__init__ X Y = Some ip -> (i < size X)%N ->
  exists D, InterpolationPoly.vanishing_poly_diff ip = Some D
            /\ coeff_eval D X`_i = Some (\prod_(y <- rem X`_i X) (X`_i - y)).
Proof.
case/init_some=> -> _ lt_i; rewrite vanishing_poly_diffE.
eexists; split; first by [].
rewrite coeff_evalE ?monomial_of_poly // poly_of_of_poly -deriv_vanishing.
by rewrite horner_deriv_vanishing ?horner_quotient_rem ?mem_nth.
Qed.

(** X24.  For pairwise-distinct nodes, [lagrange_poly(i)] evaluates at
    every point [x] to the product, over the other nodes [y], of
    [(x - y) / (X[i] - y)]. *)
Theorem lagrange_poly_formula X Y ip (i : nat) x :
  InterpolationPoly.__init__ X Y = Some ip -> uniq X -> (i < size X)%N ->
  exists L, InterpolationPoly.lagrange_poly ip (Posz i) = Some L
            /\ coeff_eval L x
               = Some (\prod_(y <- rem X`_i X) ((x - y) / (X`_i - y))).
Proof.
case/init_some=> -> _ uniq_X lt_i; rewrite lagrange_polyE //.
eexists; split; first by [].
rewrite coeff_evalE ?monomial_of_poly // poly_of_of_poly /lagrange hornerZ.
by rewrite !horner_quotient_rem ?mem_nth // mulrC prodf_div.
Qed.

(** X25.  [lagrange_poly] indexes the nodes as Python does: an index of
    [n] or more, or below [-n], fails, and a negative index [i] from [-n]
    on selects the node of index [i + n]. *)
Theorem lagrange_poly_index X Y ip (i : int) :
  InterpolationPoly.__init__ X Y = Some ip ->
  [/\ Posz (size X) <= i -> InterpolationPoly.lagrange_poly ip i = None,
      i < - Posz (size X) -> InterpolationPoly.lagrange_poly ip i = None
    & - Posz (size X) <= i -> i < 0 ->
      InterpolationPoly.lagrange_poly ip i
      = InterpolationPoly.lagrange_poly ip (i + Posz (size X))].
Proof.
case/init_some=> -> _; have [idx_hi idx_lo idx_neg] := index_wrap X i.
rewrite /InterpolationPoly.lagrange_poly vanishing_polyE vanishing_poly_diffE.
by split=> /= [/idx_hi ->|/idx_lo ->|le_i lt_i] //; rewrite idx_neg.
Qed.

(** X26.  [poly] returns exactly when the nodes are pairwise distinct: a
    repeated node makes [lagrange_poly] divide by zero. *)
Theorem poly_defined_iff_distinct X Y ip :
  InterpolationPoly.__init__ X Y = Some ip ->
  isSome (InterpolationPoly.poly ip) = uniq X.
Proof.
case/init_some=> -> sz_XY; case uniq_X : (uniq X); first by rewrite polyE.
have [x x_in x_rem] := repeated_node (negbT uniq_X).
rewrite /InterpolationPoly.poly (@for_range_fail _ _ _ _ (index x X)) //=.
  by rewrite index_mem.
by move=> a; rewrite lagrange_poly_repeated ?index_mem ?nth_index.
Qed.

(** X27.  Interpolation recovers a polynomial from its values: when [Y]
    holds the values at pairwise-distinct nodes [X] of a MONOMIAL polynomial
    [F] with at most [n] coefficients, [poly] returns [F] with its trailing
    zero coefficients stripped. *)
Theorem poly_recovers_polynomial X Y ip F :
  InterpolationPoly.__init__ X Y = Some ip -> uniq X ->
  monomial F -> (size (values F) <= size X)%N ->
  (forall i, (i < size X)%N -> coeff_eval F X`_i = Some Y`_i) ->
  InterpolationPoly.poly ip = Some (trimmed F).
Proof.
case/init_some=> -> sz_XY uniq_X mF sz_F ev_F.
rewrite polyE // trimmedE //; congr (Some (of_poly _)).
apply: interpolant_unique => // [|i lt_i].
  exact: leq_trans (size_Poly _) sz_F.
by have := ev_F i lt_i; rewrite coeff_evalE // => -[->].
Qed.

End InterpolationLaws.

(** *** Interpolation at the toy field *)

Lemma vanishing_poly_roots_witness :
  exists V,
    [/\ InterpolationPoly.vanishing_poly toy_ip = Some V, basis V = MONOMIAL,
        size (values V) = (size toy_X).+1 /\ last 0 (values V) = 1,
        forall x, coeff_eval V x = Some (\prod_(y <- toy_X) (x - y))
      & forall x, (coeff_eval V x == Some 0) = (x \in toy_X)].
Proof. by apply: (@vanishing_poly_roots 5 toy_X toy_Y toy_ip). Defined.

Lemma vanishing_poly_diff_at_node_witness :
  exists D, InterpolationPoly.vanishing_poly_diff toy_ip = Some D
            /\ coeff_eval D toy_X`_1
               = Some (\prod_(y <- rem toy_X`_1 toy_X) (toy_X`_1 - y)).
Proof. by apply: (@vanishing_poly_diff_at_node 5 toy_X toy_Y toy_ip 1). Defined.

Lemma lagrange_poly_formula_witness :
  exists L, InterpolationPoly.lagrange_poly toy_ip (Posz 1) = Some L
            /\ coeff_eval L 0
               = Some (\prod_(y <- rem toy_X`_1 toy_X)
                         ((0 - y) / (toy_X`_1 - y))).
Proof. by apply: (@lagrange_poly_formula 5 toy_X toy_Y toy_ip 1 0). Defined.

Lemma lagrange_poly_index_witness :
  [/\ Posz (size toy_X) <= - 1 ->
        InterpolationPoly.lagrange_poly toy_ip (- 1) = None,
      - 1 < - Posz (size toy_X) ->
        InterpolationPoly.lagrange_poly toy_ip (- 1) = None
    & - Posz (size toy_X) <= - 1 -> - 1 < 0 :> int ->
      InterpolationPoly.lagrange_poly toy_ip (- 1)
      = InterpolationPoly.lagrange_poly toy_ip (- 1 + Posz (size toy_X))].
Proof. by apply: (@lagrange_poly_index 5 toy_X toy_Y toy_ip (- 1)). Defined.

Lemma poly_defined_iff_distinct_witness :
  isSome (InterpolationPoly.poly toy_ip) = uniq toy_X.
Proof. by apply: (@poly_defined_iff_distinct 5 toy_X toy_Y toy_ip). Defined.

Lemma poly_recovers_polynomial_witness :
  InterpolationPoly.poly toy_ip
  = Some (trimmed (mkPolynomial [:: 2%:R; 1] MONOMIAL)).
Proof.
apply: (@poly_recovers_polynomial 5 toy_X toy_Y toy_ip) => //.
by case=> [|[|i]] // _; congr Some; apply/eqP.
Defined.

(** ** Interpolation over the roots of unity *)

Section DomainInterpolation.
Variable p : nat.
Hypothesis p_prime : prime p.
Local Notation Scalar := 'F_p.
Variable roots_of_unity : nat -> seq Scalar.
Variable k : nat.
Hypothesis domain_contract : roots_contract (2 ^ k) (roots_of_unity (2 ^ k)).
Implicit Types (P Q : Polynomial p) (x : Scalar).
Implicit Types (ip : InterpolationPoly.t p).

Let n := (2 ^ k)%N.
Let rs := roots_of_unity n.
Let w : Scalar := nth 1 rs 1.

Let n_gt0 : (0 < n)%N.
Proof. by rewrite /n expn_gt0. Qed.

Lemma vanishing_domain : vanishing rs = 'X^n - 1.
Proof.
rewrite /vanishing /rs /n (contract_rs domain_contract) big_map.
rewrite -(factor_Xn_sub_1 (contract_prim_root domain_contract n_gt0)).
by rewrite /index_iota subn0.
Qed.

(** X28.  Over the roots of unity the vanishing polynomial is [X^n - 1]:
    [vanishing_poly] returns [n + 1] coefficients, and its value at [x] is
    [x^n - 1], the factor [barycentric_eval] multiplies by. *)
Theorem vanishing_poly_on_domain Y ip x :
  InterpolationPoly.__init__ (roots_of_unity (2 ^ k)) Y = Some ip ->
  exists V, [/\ InterpolationPoly.vanishing_poly ip = Some V,
                size (values V) = (2 ^ k).+1
              & coeff_eval V x = Some (x ^+ (2 ^ k)%N - 1)].
Proof.
case/init_some=> -> _; rewrite vanishing_polyE -/n -/rs.
eexists; split; first by [].
  rewrite /= size_np_repr /vanishing size_prod_XsubC.
  by rewrite (contract_size domain_contract) maxnE; slia.
rewrite coeff_evalE ?monomial_of_poly // poly_of_of_poly vanishing_domain.
by rewrite hornerD hornerN hornerXn hornerC.
Qed.

(** X29.  Interpolating the entries of a LAGRANGE polynomial over the
    roots of unity gives what [ifft] gives: [poly] returns the coefficients
    [ifft] returns, with the trailing zeros stripped. *)
Theorem poly_on_domain_is_ifft Q ip :
  basis Q = LAGRANGE -> size (values Q) = (2 ^ k)%N ->
  InterpolationPoly.__init__ (roots_of_unity (2 ^ k)) (values Q) = Some ip ->
  exists P, ifft roots_of_unity Q = Some P
            /\ InterpolationPoly.poly ip = Some (trimmed P).
Proof.
move=> basisQ sz_Q /init_some[-> sz_XY].
rewrite (ifftE p_prime domain_contract) // -/n -/rs.
eexists; split; first by [].
have sz_rs : size rs = n := contract_size domain_contract.
rewrite polyE ?(contract_uniq domain_contract) //.
rewrite trimmedE; first by rewrite /monomial /= -size_eq0 size_map size_iota -lt0n.
congr (Some (of_poly _)); apply: interpolant_unique.
- exact: contract_uniq domain_contract.
- by apply: leq_trans (size_Poly _) _; rewrite size_map size_iota sz_rs.
move=> i; rewrite sz_rs => lt_i.
rewrite (contract_nth domain_contract) // /poly_of /=.
exact: (horner_inverse_transform domain_contract).
Qed.

End DomainInterpolation.

(** *** Interpolation over the domain of the toy field *)

Lemma vanishing_poly_on_domain_witness :
  exists V,
    [/\ InterpolationPoly.vanishing_poly
          (InterpolationPoly.Build 4 (toy_roots (2 ^ 2)) (values toy_evals))
        = Some V,
        size (values V) = (2 ^ 2).+1
      & coeff_eval V 0 = Some (0 ^+ (2 ^ 2)%N - 1)].
Proof.
exact: (@vanishing_poly_on_domain 5 toy_roots 2 toy_contract
          (values toy_evals) _ 0 (erefl _)).
Defined.

Lemma poly_on_domain_is_ifft_witness :
  exists P, ifft toy_roots toy_evals = Some P
            /\ InterpolationPoly.poly
                 (InterpolationPoly.Build 4 (toy_roots (2 ^ 2))
                    (values toy_evals))
               = Some (trimmed P).
Proof.
exact: (@poly_on_domain_is_ifft 5 toy_prime toy_roots 2 toy_contract
          toy_evals _ (erefl _) (erefl _) (erefl _)).
Defined.
